(** * fq [format/python/pyc.go]: the marshal object decoder

    A shallow embedding of the Python bytecode ("marshal") decoder of
    [format/python/pyc.go] and the properties of its recursive object
    decoder [r_object].

    The decoder is written against fq's [decode.D] API.  A [decode.D]
    carries the input cursor, the byte order and the compound value that
    is being filled with fields; it is modelled by the record [D] and
    the decoder functions by a state-and-error monad over it. *)

From Stdlib Require Import ZArith String Ascii Bool Lia QArith List.
From Stdlib Require Import Strings.Byte.
From Stdlib Require Import Floats.SpecFloat.
Import ListNotations.

Set Warnings "-register-all".

Local Open Scope string_scope.
Local Open Scope list_scope.
Local Open Scope Z_scope.

(** ** The [decode] package *)

Module Decode.

(** [decode.Endian] *)
Inductive endian : Type := BigEndian | LittleEndian.

(** The tree of decoded fields.  Every field has a name; scalars carry
    their actual value (and, for mapped unsigned integers, the symbol
    and description found by the mapper), compounds carry their
    children in the order they were added. *)
Inductive Value : Type :=
| Uint (actual : Z) (sym : option (string * string))
| Sint (actual : Z)
| Flt (actual : spec_float)
| Raw (bs : list byte)
| Str (bs : list byte)
| Struct (fields : list (string * Value))
| Array (items : list (string * Value)).

Definition field : Type := (string * Value)%type.

(** [decode.D]: byte order, the input that is still unread, and the
    children of the compound under construction. *)
Record D : Type := mkD {
  Endian : endian;
  buf : list byte;
  children : list field
}.

(** Outcomes of a decode that does not return normally.  The first
    three are errors of the decode package.  [GoPanic] is a Go
    [panic(msg)] with a string: not an error value, it unwinds the
    callers until something recovers it, and nothing in this file does.
    [OutOfFuel] belongs to the model only: the recursion went deeper
    than the budget of [r_object_fuel]; it is shown unreachable from
    [r_object]. *)
Inductive error : Type :=
| TruncatedInput (need : nat) (left : nat)
| MalformedLength (n : Z)
| TextDecodeError
| GoPanic (msg : string)
| OutOfFuel.

Inductive Res (A : Type) : Type :=
| Ok (a : A)
| Err (e : error).
Arguments Ok {A} a.
Arguments Err {A} e.

(** A decoder function [func(d *decode.D) A]. *)
Definition Dec (A : Type) : Type := D -> Res (A * D).

Definition ret {A} (a : A) : Dec A := fun d => Ok (a, d).

Definition bind {A B} (m : Dec A) (k : A -> Dec B) : Dec B :=
  fun d => match m d with
           | Ok (a, d') => k a d'
           | Err e => Err e
           end.

Definition fail {A} (e : error) : Dec A := fun _ => Err e.

(** Go's [panic(msg)]. *)
Definition panic {A} (msg : string) : Dec A := fail (GoPanic msg).

Declare Scope dec_scope.
Delimit Scope dec_scope with dec.
Notation "x <- m ;; k" := (bind m (fun x => k))
  (at level 61, m at next level, right associativity) : dec_scope.
Notation "m ;; k" := (bind m (fun _ => k))
  (at level 61, right associativity) : dec_scope.
Local Open Scope dec_scope.

Definition byte_val (b : byte) : Z := Z.of_N (Byte.to_N b).

(** Modelled from the spec: the cursor of [decode.D] (fq's bit reader is
    not in this file).  Reads [n] bytes at the current position and
    advances; "TruncatedInput - fewer bytes remain than a primitive
    read requires". *)
Definition read_bytes (n : nat) : Dec (list byte) :=
  fun d =>
    if (n <=? length (buf d))%nat
    then Ok (firstn n (buf d), mkD (Endian d) (skipn n (buf d)) (children d))
    else Err (TruncatedInput n (length (buf d))).

(** Unsigned value of a byte sequence, least significant byte first. *)
Fixpoint le_uint (bs : list byte) : Z :=
  match bs with
  | [] => 0
  | b :: bs' => byte_val b + 256 * le_uint bs'
  end.

Definition uint_of_bytes (e : endian) (bs : list byte) : Z :=
  match e with
  | LittleEndian => le_uint bs
  | BigEndian => le_uint (rev bs)
  end.

(** Two's complement reading of a [w]-bit unsigned value. *)
Definition to_signed (w : Z) (u : Z) : Z :=
  if u <? 2 ^ (w - 1) then u else u - 2 ^ w.

(** Modelled from the spec: the primitive readers of [decode.D]
    ("read fixed-width little-endian integers (8/32/64-bit,
    signed/unsigned), IEEE-754 doubles ... from the current stream
    position, advancing the cursor"); the byte order is the one set in
    [d.Endian]. *)
Definition U (nbytes : nat) : Dec Z :=
  fun d => (bs <- read_bytes nbytes ;; ret (uint_of_bytes (Endian d) bs)) d.

Definition S_ (nbytes : nat) : Dec Z :=
  u <- U nbytes ;; ret (to_signed (8 * Z.of_nat nbytes) u).

Definition U8 : Dec Z := U 1.

(** Modelled from the spec: [math.Float64frombits], the IEEE-754
    binary64 value of a 64-bit pattern (1 sign bit, 11 exponent bits,
    52 fraction bits). *)
Definition float64frombits (bits : Z) : spec_float :=
  let s := Z.testbit bits 63 in
  let e := Z.land (Z.shiftr bits 52) 2047 in
  let m := Z.land bits (Z.ones 52) in
  if e =? 0 then
    match m with
    | Zpos p => S754_finite s p (-1074)
    | _ => S754_zero s
    end
  else if e =? 2047 then
    (if m =? 0 then S754_infinity s else S754_nan)
  else
    match m + 2 ^ 52 with
    | Zpos p => S754_finite s p (e - 1075)
    | _ => S754_nan
    end.

(** The rational number a finite float stands for. *)
Definition float_value (f : spec_float) : option Q :=
  match f with
  | S754_zero _ => Some 0%Q
  | S754_finite s m e =>
      let mag := (inject_Z (Zpos m) * Qpower 2 e)%Q in
      Some (if s then Qopp mag else mag)
  | _ => None
  end.

(** Adding a field to the compound under construction.  fq refuses a
    second field of a name a struct already has; that test is not
    modelled.  The decoder below never adds a name twice to a struct of
    its own (see [r_object_field_names_differ]), so the test can only
    matter for fields that were in the struct before the call. *)
Definition add_field (name : string) (v : Value) : Dec unit :=
  fun d => Ok (tt, mkD (Endian d) (buf d) (children d ++ [(name, v)])).

(** Modelled from the spec: the field readers of [decode.D].  Each reads
    a primitive, adds it to the current compound under [name] and
    returns the value read. *)
Definition FieldU8 (name : string) : Dec Z :=
  v <- U8 ;; add_field name (Uint v None) ;; ret v.

Definition FieldU32 (name : string) : Dec Z :=
  v <- U 4 ;; add_field name (Uint v None) ;; ret v.

Definition FieldS32 (name : string) : Dec Z :=
  v <- S_ 4 ;; add_field name (Sint v) ;; ret v.

Definition FieldS64 (name : string) : Dec Z :=
  v <- S_ 8 ;; add_field name (Sint v) ;; ret v.

Definition FieldF64 (name : string) : Dec spec_float :=
  u <- U 8 ;;
  let f := float64frombits u in
  add_field name (Flt f) ;; ret f.

(** [scalar.UintMap]: a table from values to symbol and description. *)
Definition UintMap : Type := list (Z * (string * string)).

Fixpoint UintMap_lookup (m : UintMap) (k : Z) : option (string * string) :=
  match m with
  | [] => None
  | (k', s) :: m' => if k =? k' then Some s else UintMap_lookup m' k
  end.

(** Modelled from the spec: [d.FieldUintFn(name, fn, mapper)] runs [fn]
    on the decoder, stores what it returns as the unsigned field
    [name], annotated by the mapper ("used only for presentation"), and
    returns it. *)
Definition FieldUintFn (name : string) (fn : Dec Z) (m : UintMap) : Dec Z :=
  v <- fn ;; add_field name (Uint v (UintMap_lookup m v)) ;; ret v.

(** Modelled from the spec: a declared length that "is negative or would
    read past the end of the available input" is a MalformedLength
    error. *)
Definition read_declared (n : Z) : Dec (list byte) :=
  fun d =>
    if n <? 0 then Err (MalformedLength n)
    else if (length (buf d) <? Z.to_nat n)%nat then Err (MalformedLength n)
    else read_bytes (Z.to_nat n) d.

(** Modelled from the spec: [d.FieldRawLen(name, nBits)], "read exactly
    n raw bytes as an opaque blob"; every length this decoder passes is
    a whole number of bytes. *)
Definition FieldRawLen (name : string) (nBits : Z) : Dec unit :=
  bs <- read_declared (nBits / 8) ;; add_field name (Raw bs).

(** Well-formed UTF-8 (Unicode 15, table 3-7). *)
Definition in_range (lo hi : Z) (b : byte) : bool :=
  (lo <=? byte_val b) && (byte_val b <=? hi).

Definition cont (b : byte) : bool := in_range 128 191 b.

Fixpoint utf8_valid (bs : list byte) : bool :=
  match bs with
  | [] => true
  | b0 :: r0 =>
    if in_range 0 127 b0 then utf8_valid r0 else
    match r0 with
    | [] => false
    | b1 :: r1 =>
      if in_range 194 223 b0 then cont b1 && utf8_valid r1 else
      match r1 with
      | [] => false
      | b2 :: r2 =>
        if in_range 224 224 b0 then in_range 160 191 b1 && cont b2 && utf8_valid r2
        else if in_range 225 236 b0 then cont b1 && cont b2 && utf8_valid r2
        else if in_range 237 237 b0 then in_range 128 159 b1 && cont b2 && utf8_valid r2
        else if in_range 238 239 b0 then cont b1 && cont b2 && utf8_valid r2
        else
        match r2 with
        | [] => false
        | b3 :: r3 =>
          if in_range 240 240 b0
          then in_range 144 191 b1 && cont b2 && cont b3 && utf8_valid r3
          else if in_range 241 243 b0
          then cont b1 && cont b2 && cont b3 && utf8_valid r3
          else if in_range 244 244 b0
          then in_range 128 143 b1 && cont b2 && cont b3 && utf8_valid r3
          else false
        end
      end
    end
  end.

(** Modelled from the spec: text of a declared byte length, "decoded as
    UTF-8 text"; "TextDecodeError - declared-length bytes are not valid
    UTF-8 for a text variant".  The text is kept as its UTF-8 bytes. *)
Definition text (n : Z) : Dec (list byte) :=
  bs <- read_declared n ;;
  if utf8_valid bs then ret bs else fail TextDecodeError.

(** Modelled from the spec: [d.FieldStr(name, nBytes, unicode.UTF8)]. *)
Definition FieldStr (name : string) (nBytes : Z) : Dec unit :=
  s <- text nBytes ;; add_field name (Str s).

(** Modelled from the spec: [d.FieldUTF8ShortString(name)], "read one
    unsigned byte as length n (0-255), then read n bytes decoded as
    UTF-8 text"; one field. *)
Definition FieldUTF8ShortString (name : string) : Dec unit :=
  n <- U8 ;; s <- text n ;; add_field name (Str s).

(** Modelled from the spec: [d.FieldStruct(name, fn)] runs [fn] on a
    fresh struct that shares the cursor and adds the struct as field
    [name].  A Go closure returns nothing and reports through captured
    variables; here [fn]'s result is handed back instead. *)
Definition FieldStruct {A} (name : string) (fn : Dec A) : Dec A :=
  fun d =>
    match fn (mkD (Endian d) (buf d) []) with
    | Ok (a, d') =>
        Ok (a, mkD (Endian d) (buf d') (children d ++ [(name, Struct (children d'))]))
    | Err e => Err e
    end.

(** Modelled from the spec: [d.FieldArray(name, fn)], as [FieldStruct]
    for an array. *)
Definition FieldArray {A} (name : string) (fn : Dec A) : Dec A :=
  fun d =>
    match fn (mkD (Endian d) (buf d) []) with
    | Ok (a, d') =>
        Ok (a, mkD (Endian d) (buf d') (children d ++ [(name, Array (children d'))]))
    | Err e => Err e
    end.

(** [n] runs of [m], one after the other. *)
Fixpoint times (n : nat) (m : Dec unit) : Dec unit :=
  match n with
  | O => ret tt
  | S n' => m ;; times n' m
  end.

(** Modelled from the spec: [d.FieldStructNArray(name, structName,
    count, fn)], which "decodes n objects by repeated invocation,
    preserving order".  It is the counting loop
    [for i := 0; i < count; i++] in an array [name]: one struct
    [structName] per round, and no round at all for a count below one.
    Neither [read_list] nor the loop tests the sign of the count, so
    the "malformed-length error" the specification wants for a
    negative count is not raised here. *)
Definition FieldStructNArray (name structName : string) (count : Z)
           (fn : Dec unit) : Dec unit :=
  FieldArray name (times (Z.to_nat count) (FieldStruct structName fn)).

End Decode.

(** ** [format/python/pyc.go] *)

Module Pyc.
Import Decode.
Local Open Scope dec_scope.

(** A Go rune constant such as ['0']. *)
Definition chr (a : ascii) : Z := Z.of_N (N_of_ascii a).

Definition TYPE_NULL : Z := chr "0".
Definition TYPE_NONE : Z := chr "N".
Definition TYPE_FALSE : Z := chr "F".
Definition TYPE_TRUE : Z := chr "T".
Definition TYPE_STOPITER : Z := chr "S".
Definition TYPE_ELLIPSIS : Z := chr ".".
Definition TYPE_BINARY_FLOAT : Z := chr "g".
Definition TYPE_BINARY_COMPLEX : Z := chr "y".
Definition TYPE_LONG : Z := chr "l".
Definition TYPE_STRING : Z := chr "s".
Definition TYPE_TUPLE : Z := chr "(".
Definition TYPE_LIST : Z := chr "[".
Definition TYPE_DICT : Z := chr "{".
Definition TYPE_CODE : Z := chr "c".
Definition TYPE_UNICODE : Z := chr "u".
Definition TYPE_UNKNOWN : Z := chr "?".
Definition TYPE_SET : Z := chr "<".
Definition TYPE_FROZENSET : Z := chr ">".
Definition TYPE_SLICE : Z := chr ":".

Definition TYPE_INTERNED : Z := chr "t".
Definition TYPE_ASCII : Z := chr "a".
Definition TYPE_ASCII_INTERNED : Z := chr "A".
Definition TYPE_SHORT_ASCII : Z := chr "z".
Definition TYPE_SHORT_ASCII_INTERNED : Z := chr "Z".

Definition TYPE_INT : Z := chr "i".
Definition TYPE_SMALL_TUPLE : Z := chr ")".

Definition TYPE_COMPLEX : Z := chr "x".
Definition TYPE_FLOAT : Z := chr "f".
Definition TYPE_INT64 : Z := chr "I".

Definition TYPE_REF : Z := chr "r".

(** [const FLAG_REF uint64 = 0x80] *)
Definition FLAG_REF : Z := 128.

(** Go's [^x] on a [uint64]. *)
Definition not64 (x : Z) : Z := Z.lxor x (Z.ones 64).

Definition typeMap : UintMap :=
  [ (TYPE_NULL, ("null", "Not a Python object"));
    (TYPE_NONE, ("None", "Python None"));
    (TYPE_FALSE, ("False", "Python False"));
    (TYPE_TRUE, ("True", "Python True"));
    (TYPE_STOPITER, ("StopIteration", "StopIteration exception"));
    (TYPE_ELLIPSIS, ("Ellipsis", "Ellipsis object"));
    (TYPE_BINARY_FLOAT, ("binary_float", "Binary float"));
    (TYPE_BINARY_COMPLEX, ("binary_complex", "Binary complex"));
    (TYPE_LONG, ("long", "Long integer (arbitrary precision)"));
    (TYPE_STRING, ("string", "Byte string"));
    (TYPE_TUPLE, ("tuple", "Tuple"));
    (TYPE_LIST, ("list", "List"));
    (TYPE_DICT, ("dict", "Dictionary"));
    (TYPE_CODE, ("code", "Code object"));
    (TYPE_UNICODE, ("unicode", "Unicode string"));
    (TYPE_UNKNOWN, ("unknown", "Unknown type"));
    (TYPE_SET, ("set", "Set"));
    (TYPE_FROZENSET, ("frozenset", "Frozen set"));
    (TYPE_SLICE, ("slice", "Slice object"));
    (TYPE_INTERNED, ("interned", "Interned unicode string"));
    (TYPE_ASCII, ("ascii", "ASCII unicode string"));
    (TYPE_ASCII_INTERNED, ("ascii_interned", "Interned ASCII unicode string"));
    (TYPE_SHORT_ASCII, ("short_ascii", "Short ASCII unicode string"));
    (TYPE_SHORT_ASCII_INTERNED,
      ("short_ascii_interned", "Interned short ASCII unicode string"));
    (TYPE_INT, ("int", "Integer"));
    (TYPE_SMALL_TUPLE, ("small_tuple", "Small tuple"));
    (TYPE_COMPLEX, ("complex", "Complex number"));
    (TYPE_FLOAT, ("float", "Float number"));
    (TYPE_INT64, ("int64", "64-bit integer"));
    (TYPE_REF, ("ref", "Reference to an earlier object")) ].

(** A call whose result the Go code drops. *)
Definition void {A} (m : Dec A) : Dec unit := m ;; ret tt.

(** [read_list] and [r_object] call each other; [r_object] is passed in
    and the knot is tied in [r_object_fuel]. *)
Definition read_list (r_object : Dec Z) (n : Z) : Dec unit :=
  FieldStructNArray "items" "item" n (void r_object).

(** The [for !end] loop of the dict case.  [n] bounds the number of
    iterations; it is set to more than the bytes that are left, and
    every iteration reads at least one. *)
Fixpoint dict_loop (r_object : Dec Z) (n : nat) : Dec unit :=
  match n with
  | O => fail OutOfFuel
  | S n' =>
    end_ <- FieldStruct "key" (ty <- r_object ;; ret (ty =? TYPE_NULL)) ;;
    if end_ : bool then ret tt
    else
      end_ <- FieldStruct "value" (ty <- r_object ;; ret (ty =? TYPE_NULL)) ;;
      if end_ : bool then ret tt else dict_loop r_object n'
  end.

(** The [switch ty] of [r_object], with the recursive calls going to
    the argument.  The cases are tried in the order of the source; a
    [fallthrough] case shares the test of the case it falls into, and
    there is no [default]. *)
Definition r_object_switch (r_object : Dec Z) (ty : Z) : Dec unit :=
  if ty =? TYPE_NULL then ret tt
  else if ty =? TYPE_NONE then ret tt
  else if ty =? TYPE_STOPITER then ret tt
  else if ty =? TYPE_ELLIPSIS then ret tt
  else if ty =? TYPE_FALSE then ret tt
  else if ty =? TYPE_TRUE then ret tt
  else if ty =? TYPE_INT then void (FieldS32 "value")
  else if ty =? TYPE_INT64 then void (FieldS64 "value")
  else if ty =? TYPE_LONG then panic "long not implemented"
  else if ty =? TYPE_FLOAT then panic "float not implemented"
  else if ty =? TYPE_BINARY_FLOAT then void (FieldF64 "value")
  else if ty =? TYPE_COMPLEX then panic "complex not implemented"
  else if ty =? TYPE_BINARY_COMPLEX then
    FieldF64 "real" ;; void (FieldF64 "imag")
  else if ty =? TYPE_STRING then
    length <- FieldS32 "length" ;; FieldRawLen "value" (length * 8)
  else if (ty =? TYPE_ASCII_INTERNED) || (ty =? TYPE_ASCII) then
    length <- FieldS32 "length" ;; FieldStr "value" length
  else if ty =? TYPE_SHORT_ASCII_INTERNED then FieldUTF8ShortString "string"
  else if ty =? TYPE_SHORT_ASCII then FieldUTF8ShortString "string"
  else if (ty =? TYPE_INTERNED) || (ty =? TYPE_UNICODE) then
    length <- FieldS32 "length" ;; FieldStr "value" length
  else if ty =? TYPE_SMALL_TUPLE then
    n <- FieldU8 "n" ;; read_list r_object n
  else if ty =? TYPE_TUPLE then
    n <- FieldS32 "n" ;; read_list r_object n
  else if ty =? TYPE_LIST then
    n <- FieldS32 "n" ;; read_list r_object n
  else if ty =? TYPE_DICT then
    FieldArray "items"
      (fun d => dict_loop r_object (S (List.length (buf d))) d)
  else if (ty =? TYPE_SET) || (ty =? TYPE_FROZENSET) then
    n <- FieldS32 "n" ;; read_list r_object n
  else if ty =? TYPE_CODE then
    FieldS32 "argcount" ;;
    FieldS32 "posonlyargcount" ;;
    FieldS32 "kwonlyargcount" ;;
    FieldS32 "stacksize" ;;
    FieldS32 "flags" ;;
    FieldStruct "code" r_object ;;
    FieldStruct "consts" r_object ;;
    FieldStruct "names" r_object ;;
    FieldStruct "localsplusnames" r_object ;;
    FieldStruct "localspluskinds" r_object ;;
    FieldStruct "filename" r_object ;;
    FieldStruct "name" r_object ;;
    FieldStruct "qualname" r_object ;;
    FieldU32 "firstlineno" ;;
    FieldStruct "linetable" r_object ;;
    void (FieldStruct "exceptiontable" r_object)
  else if ty =? TYPE_REF then void (FieldU32 "index")
  else if ty =? TYPE_SLICE then panic "slice not implemented"
  else ret tt.

(** Reading the tag: [code & ^FLAG_REF], stored as field "type". *)
Definition read_type : Dec Z :=
  FieldUintFn "type"
    (code <- U8 ;; ret (Z.land code (not64 FLAG_REF))) typeMap.

(** The body of [r_object]: the tag, the switch, [return ty]. *)
Definition r_object_body (r_object : Dec Z) : Dec Z :=
  ty <- read_type ;;
  r_object_switch r_object ty ;;
  ret ty.

(** [r_object], with [fuel] bounding the depth of the recursion. *)
Fixpoint r_object_fuel (fuel : nat) : Dec Z :=
  match fuel with
  | O => fail OutOfFuel
  | S fuel' => r_object_body (r_object_fuel fuel')
  end.

(** Every call of [r_object] reads its tag byte before it recurses, so
    the recursion is never deeper than the input is long (see
    [r_object_fuel_enough]). *)
Definition r_object : Dec Z :=
  fun d => r_object_fuel (S (List.length (buf d))) d.

Definition decodePYC : Dec unit :=
  fun d =>
    let d := mkD LittleEndian (buf d) (children d) in
    (FieldU32 "magic" ;;
     FieldRawLen "bit field" (4 * 8) ;;
     FieldU32 "timestamp" ;;
     FieldU32 "length" ;;
     FieldStruct "object" r_object ;;
     ret tt) d.

End Pyc.

(** ** Vocabulary of the statements *)

Module Props.
Import Decode Pyc.

(** [m] never gives input back. *)
Definition nonincr {A} (m : Dec A) : Prop :=
  forall d a d', m d = Ok (a, d') ->
    (List.length (buf d') <= List.length (buf d))%nat.

(** [m] reads at least one byte whenever it returns. *)
Definition consuming {A} (m : Dec A) : Prop :=
  forall d a d', m d = Ok (a, d') ->
    (List.length (buf d') < List.length (buf d))%nat.

(** [m] does not run out of fuel on inputs shorter than [n]. *)
Definition fueled {A} (n : nat) (m : Dec A) : Prop :=
  forall d, (List.length (buf d) < n)%nat -> m d <> Err OutOfFuel.

(** [m'] does whatever [m] does, wherever [m] has fuel enough. *)
Definition refines {A} (m m' : Dec A) : Prop :=
  forall d, m d <> Err OutOfFuel -> m' d = m d.

(** The tag a byte stands for: [code & ^FLAG_REF]. *)
Definition strip (b : byte) : Z := Z.land (byte_val b) (not64 FLAG_REF).

(** The field "type" of an object with tag [ty]. *)
Definition type_field (ty : Z) : field :=
  ("type", Uint ty (UintMap_lookup typeMap ty)).

(** The four fields [decodePYC] reads from a 16-byte header. *)
Definition header_fields (hdr : list byte) : list field :=
  [ ("magic", Uint (le_uint (firstn 4 hdr)) None);
    ("bit field", Raw (firstn 4 (skipn 4 hdr)));
    ("timestamp", Uint (le_uint (firstn 4 (skipn 8 hdr))) None);
    ("length", Uint (le_uint (firstn 4 (skipn 12 hdr))) None) ].

(** The binary64 number with fraction bits 1000...0 and exponent 0. *)
Definition one_and_a_half : spec_float :=
  S754_finite false 6755399441055744 (-52).

(** [n] single-element tuples, one inside the other, around [inner]:
    tag '(' and the count 1 in four little-endian bytes, [n] times. *)
Fixpoint nested_tuples (n : nat) (inner : list byte) : list byte :=
  match n with
  | O => inner
  | S n' => x28 :: x01 :: x00 :: x00 :: x00 :: nested_tuples n' inner
  end.

(** The fields of the object that [nested_tuples n] around [None]
    decodes to. *)
Fixpoint nested_fields (n : nat) : list field :=
  match n with
  | O => [type_field TYPE_NONE]
  | S n' => [ type_field TYPE_TUPLE; ("n", Sint 1);
              ("items", Array [("item", Struct (nested_fields n'))]) ]
  end.

Definition nested_tag (n : nat) : Z :=
  match n with O => TYPE_NONE | S _ => TYPE_TUPLE end.

(** C4 as the specification has it: beyond some nesting depth the
    decoder fails. *)
Definition depth_is_bounded : Prop :=
  exists bound, forall n, (bound < n)%nat ->
    exists e, r_object (mkD LittleEndian (nested_tuples n [x4e]) []) = Err e.

(** The layout of the code record, in the words of the specification:
    [argcount:i32, ..., code:Object, ..., firstlineno:u32, ...]. *)
Inductive field_kind : Type := i32 | u32 | Object.

Definition code_layout : list (string * field_kind) :=
  [ ("argcount", i32); ("posonlyargcount", i32); ("kwonlyargcount", i32);
    ("stacksize", i32); ("flags", i32);
    ("code", Object); ("consts", Object); ("names", Object);
    ("localsplusnames", Object); ("localspluskinds", Object);
    ("filename", Object); ("name", Object); ("qualname", Object);
    ("firstlineno", u32);
    ("linetable", Object); ("exceptiontable", Object) ].

(** Decoding by a layout, as the specification words it: one field
    after the other, each by its kind; an [Object] is one run of the
    object decoder [rec] in a struct of its own.  To be compared with
    the code case of [r_object_switch]. *)
Definition decode_field (rec : Dec Z) (f : string * field_kind) : Dec unit :=
  match snd f with
  | i32 => void (FieldS32 (fst f))
  | u32 => void (FieldU32 (fst f))
  | Object => void (FieldStruct (fst f) rec)
  end.

Fixpoint decode_record (rec : Dec Z) (l : list (string * field_kind)) : Dec unit :=
  match l with
  | [] => ret tt
  | f :: l' => bind (decode_field rec f) (fun _ => decode_record rec l')
  end.

(** A decoded value of the given kind. *)
Definition has_kind (k : field_kind) (v : Value) : Prop :=
  match k, v with
  | i32, Sint x => - 2 ^ 31 <= x < 2 ^ 31
  | u32, Uint x None => 0 <= x < 2 ^ 32
  | Object, Struct _ => True
  | _, _ => False
  end.

(** A code object whose five counters are 1..5, whose objects are all
    Null and whose first line is 7. *)
Definition sample_code : list byte :=
  [ x63;
    x01; x00; x00; x00;  x02; x00; x00; x00;  x03; x00; x00; x00;
    x04; x00; x00; x00;  x05; x00; x00; x00;
    x30; x30; x30; x30; x30; x30; x30; x30;
    x07; x00; x00; x00;
    x30; x30 ].

(** [reads_items rec e s items s']: [items] are the structs of the
    objects that [rec] decodes one after the other, starting on input
    [s] and leaving [s']. *)
Inductive reads_items (rec : Dec Z) (e : endian) :
  list byte -> list field -> list byte -> Prop :=
| reads_nil s : reads_items rec e s [] s
| reads_cons s ty d1 items s' :
    rec (mkD e s []) = Ok (ty, d1) ->
    reads_items rec e (buf d1) items s' ->
    reads_items rec e s (("item", Struct (children d1)) :: items) s'.

(** The tags after which a 4-byte signed count of objects follows. *)
Definition count_tags : list Z :=
  [ TYPE_TUPLE; TYPE_LIST; TYPE_SET; TYPE_FROZENSET ].

(** The tags after which a 4-byte signed length in bytes follows. *)
Definition length_tags : list Z :=
  [ TYPE_STRING; TYPE_ASCII; TYPE_ASCII_INTERNED;
    TYPE_UNICODE; TYPE_INTERNED ].

(** The 32-bit signed integer in four bytes. *)
Definition s32 (e : endian) (c0 c1 c2 c3 : byte) : Z :=
  to_signed 32 (uint_of_bytes e [c0; c1; c2; c3]).

(** The tag of a decoded object: the value of its field "type". *)
Definition tag_of (v : Value) : option Z :=
  match v with
  | Struct ((_, Uint t _) :: _) => Some t
  | _ => None
  end.

(** An object that is its tag only. *)
Definition bare (ty : Z) : Value := Struct [type_field ty].

(** C1 as the specification has it, third part: a Null-tagged object in
    the value position does not end the loop, so in a decoded dict a
    Null value is never the last item. *)
Definition null_value_continues : Prop :=
  forall d d' items pre v,
    r_object d = Ok (TYPE_DICT, d') ->
    children d' = children d ++ [type_field TYPE_DICT; ("items", Array items)] ->
    items = pre ++ [("value", v)] ->
    tag_of v <> Some TYPE_NULL.

(** C7 as the specification has it, for the counts: a negative count
    after tuple, list, set or frozenset is a decode error. *)
Definition negative_count_is_error : Prop :=
  forall b e c0 c1 c2 c3 rest flds,
    In (strip b) count_tags ->
    s32 e c0 c1 c2 c3 < 0 ->
    exists err,
      r_object (mkD e (b :: c0 :: c1 :: c2 :: c3 :: rest) flds) = Err err.

(** A Go panic, as opposed to an error of the decode package. *)
Definition is_panic (e : error) : bool :=
  match e with
  | GoPanic _ => true
  | _ => false
  end.

(** C3 as the specification has it: an unsupported variant ends the
    decode with an error, not with a crash. *)
Definition unsupported_variant_is_error : Prop :=
  forall b d rest,
    buf d = b :: rest ->
    In (strip b) [TYPE_LONG; TYPE_FLOAT; TYPE_COMPLEX; TYPE_SLICE] ->
    exists err, r_object d = Err err /\ is_panic err = false.

(** The byte with value [z mod 256]. *)
Definition byte_of_Z (z : Z) : byte :=
  match Byte.of_N (Z.to_N (z mod 256)) with
  | Some b => b
  | None => x00
  end.

(** The [n] little-endian bytes of [v], two's complement when [v] is
    negative: the documented byte pattern of a fixed-width integer. *)
Fixpoint le_bytes (n : nat) (v : Z) : list byte :=
  match n with
  | O => []
  | S n' => byte_of_Z v :: le_bytes n' (v / 256)
  end.

(** The 64-bit pattern of IEEE-754 binary64 with sign [s], biased
    exponent field [e] and fraction field [m]. *)
Definition binary64_bits (s : bool) (e m : Z) : Z :=
  (if s then 2 ^ 63 else 0) + e * 2 ^ 52 + m.

(** The number IEEE-754 binary64 gives these fields: zero and
    subnormals for exponent field 0, infinity and NaN for 2047, and
    (2^52 + m) * 2^(e - 1075) otherwise. *)
Definition binary64 (s : bool) (e m : Z) : spec_float :=
  if e =? 0 then
    (if m =? 0 then S754_zero s else S754_finite s (Z.to_pos m) (-1074))
  else if e =? 2047 then
    (if m =? 0 then S754_infinity s else S754_nan)
  else S754_finite s (Z.to_pos (2 ^ 52 + m)) (e - 1075).

(** C2 as the specification has it: a tag byte that is not in the tag
    table makes the decoder fail. *)
Definition unknown_tag_fails : Prop :=
  forall b d rest,
    buf d = b :: rest ->
    UintMap_lookup typeMap (strip b) = None ->
    exists e, r_object d = Err e.
End Props.


(** ** Vocabulary of the further properties *)

Module Frame.
Import Decode Pyc Props.

(** [m] is framed on inputs shorter than [n]: when it returns it has
    read a prefix [pre] of the input and added fields [fs] to the
    compound, the byte order is as before, and it does the same on
    every input that starts with [pre], whatever follows and whatever
    the compound held. *)
Definition framed {A} (n : nat) (m : Dec A) : Prop :=
  forall d a d',
    (List.length (buf d) < n)%nat ->
    m d = Ok (a, d') ->
    exists pre fs,
      buf d = pre ++ buf d' /\
      Endian d' = Endian d /\
      children d' = children d ++ fs /\
      forall rest flds,
        m (mkD (Endian d) (pre ++ rest) flds) =
        Ok (a, mkD (Endian d) rest (flds ++ fs)).

(** The items of a decoded dict: keys and values in turn, all with a
    tag other than Null but the last item, which is a Null key or a
    Null value. *)
Inductive dict_shape : list field -> Prop :=
| shape_null_key K :
    tag_of K = Some TYPE_NULL ->
    dict_shape [("key", K)]
| shape_null_value K V k :
    tag_of K = Some k -> k <> TYPE_NULL ->
    tag_of V = Some TYPE_NULL ->
    dict_shape [("key", K); ("value", V)]
| shape_pair K V k v items :
    tag_of K = Some k -> k <> TYPE_NULL ->
    tag_of V = Some v -> v <> TYPE_NULL ->
    dict_shape items ->
    dict_shape (("key", K) :: ("value", V) :: items).

(** The tags whose case reads a count and then [read_list]. *)
Definition sequence_tags : list Z :=
  [ TYPE_SMALL_TUPLE; TYPE_TUPLE; TYPE_LIST; TYPE_SET; TYPE_FROZENSET ].

(** An element of a decoded sequence: a struct "item" that starts with
    its field "type". *)
Definition is_item (f : field) : Prop :=
  fst f = "item" /\ exists t, tag_of (snd f) = Some t.

(** The tags whose case reads a fixed number of bytes, with that
    number. *)
Definition fixed_payload : list (Z * nat) :=
  [ (TYPE_NULL, 0%nat); (TYPE_NONE, 0%nat); (TYPE_STOPITER, 0%nat);
    (TYPE_ELLIPSIS, 0%nat); (TYPE_FALSE, 0%nat); (TYPE_TRUE, 0%nat);
    (TYPE_INT, 4%nat); (TYPE_INT64, 8%nat); (TYPE_BINARY_FLOAT, 8%nat);
    (TYPE_BINARY_COMPLEX, 16%nat); (TYPE_REF, 4%nat) ].

(** [m], when it returns, has added fields of exactly these names, in
    this order. *)
Definition adds {A} (names : list string) (m : Dec A) : Prop :=
  forall d a d',
    m d = Ok (a, d') ->
    map fst (children d') = map fst (children d) ++ names.

(** The names of the fields that the case of tag [ty] adds after
    "type", case by case as in [r_object_switch]. *)
Definition switch_names (ty : Z) : list string :=
  if ty =? TYPE_NULL then []
  else if ty =? TYPE_NONE then []
  else if ty =? TYPE_STOPITER then []
  else if ty =? TYPE_ELLIPSIS then []
  else if ty =? TYPE_FALSE then []
  else if ty =? TYPE_TRUE then []
  else if ty =? TYPE_INT then ["value"]
  else if ty =? TYPE_INT64 then ["value"]
  else if ty =? TYPE_LONG then []
  else if ty =? TYPE_FLOAT then []
  else if ty =? TYPE_BINARY_FLOAT then ["value"]
  else if ty =? TYPE_COMPLEX then []
  else if ty =? TYPE_BINARY_COMPLEX then ["real"; "imag"]
  else if ty =? TYPE_STRING then ["length"; "value"]
  else if (ty =? TYPE_ASCII_INTERNED) || (ty =? TYPE_ASCII) then
    ["length"; "value"]
  else if ty =? TYPE_SHORT_ASCII_INTERNED then ["string"]
  else if ty =? TYPE_SHORT_ASCII then ["string"]
  else if (ty =? TYPE_INTERNED) || (ty =? TYPE_UNICODE) then
    ["length"; "value"]
  else if ty =? TYPE_SMALL_TUPLE then ["n"; "items"]
  else if ty =? TYPE_TUPLE then ["n"; "items"]
  else if ty =? TYPE_LIST then ["n"; "items"]
  else if ty =? TYPE_DICT then ["items"]
  else if (ty =? TYPE_SET) || (ty =? TYPE_FROZENSET) then ["n"; "items"]
  else if ty =? TYPE_CODE then
    ["argcount"; "posonlyargcount"; "kwonlyargcount"; "stacksize"; "flags";
     "code"; "consts"; "names"; "localsplusnames"; "localspluskinds";
     "filename"; "name"; "qualname"; "firstlineno"; "linetable";
     "exceptiontable"]
  else if ty =? TYPE_REF then ["index"]
  else if ty =? TYPE_SLICE then []
  else [].

(** No string occurs twice in [l]. *)
Fixpoint distinct (l : list string) : bool :=
  match l with
  | [] => true
  | x :: l' => negb (existsb (String.eqb x) l') && distinct l'
  end.
End Frame.
Import Decode Pyc Props.
Local Open Scope dec_scope.

(** ** The monad *)

Lemma bind_Ok {A B} (m : Dec A) (k : A -> Dec B) d b d' :
  bind m k d = Ok (b, d') ->
  exists a d1, m d = Ok (a, d1) /\ k a d1 = Ok (b, d').
Proof.
  unfold bind. destruct (m d) as [[a d1]|e]; [eauto | discriminate].
Qed.

Lemma bind_step {A B} (m : Dec A) (k : A -> Dec B) d a d1 :
  m d = Ok (a, d1) -> bind m k d = k a d1.
Proof. unfold bind. now intros ->. Qed.

Lemma bind_Err {A B} (m : Dec A) (k : A -> Dec B) d e :
  m d = Err e -> bind m k d = Err e.
Proof. unfold bind. now intros ->. Qed.

(** ** Input is only ever consumed *)

Create HintDb dec discriminated.

Lemma nonincr_ret {A} (a : A) : nonincr (ret a).
Proof. intros d a' d' H. inversion H. subst. lia. Qed.

Lemma nonincr_fail {A} e : nonincr (@fail A e).
Proof. intros d a d' H. discriminate. Qed.

Lemma nonincr_bind {A B} (m : Dec A) (k : A -> Dec B) :
  nonincr m -> (forall a, nonincr (k a)) -> nonincr (bind m k).
Proof.
  intros Hm Hk d b d' H.
  apply bind_Ok in H as (a & d1 & H1 & H2).
  apply Hm in H1. apply Hk in H2. lia.
Qed.

Lemma consuming_nonincr {A} (m : Dec A) : consuming m -> nonincr m.
Proof. intros H d a d' E. apply H in E. lia. Qed.

Lemma consuming_bind {A B} (m : Dec A) (k : A -> Dec B) :
  consuming m -> (forall a, nonincr (k a)) -> consuming (bind m k).
Proof.
  intros Hm Hk d b d' H.
  apply bind_Ok in H as (a & d1 & H1 & H2).
  apply Hm in H1. apply Hk in H2. lia.
Qed.

Lemma read_bytes_Ok n d bs d' :
  read_bytes n d = Ok (bs, d') ->
  buf d = bs ++ buf d' /\ List.length bs = n /\
  Endian d' = Endian d /\ children d' = children d.
Proof.
  unfold read_bytes. destruct (Nat.leb_spec n (List.length (buf d))); [|discriminate].
  intros E. inversion E. subst. cbn.
  rewrite firstn_skipn, length_firstn. repeat split. lia.
Qed.

Lemma nonincr_read_bytes n : nonincr (read_bytes n).
Proof.
  intros d bs d' H. apply read_bytes_Ok in H as (E & _). rewrite E, length_app. lia.
Qed.

Lemma consuming_read_bytes n : consuming (read_bytes (S n)).
Proof.
  intros d bs d' H. apply read_bytes_Ok in H as (E & L & _).
  rewrite E, length_app. lia.
Qed.

Lemma nonincr_add_field name v : nonincr (add_field name v).
Proof. intros d a d' H. inversion H. subst. cbn. lia. Qed.

#[local] Hint Resolve nonincr_ret nonincr_fail nonincr_bind nonincr_read_bytes
  nonincr_add_field consuming_nonincr consuming_read_bytes : dec.

Lemma consuming_U n : consuming (U (S n)).
Proof.
  intros d a d' H. unfold U in H. revert H.
  apply consuming_bind; auto with dec.
Qed.

Lemma nonincr_U n : nonincr (U n).
Proof.
  intros d a d' H. unfold U in H. revert H.
  apply nonincr_bind; auto with dec.
Qed.

Lemma nonincr_S n : nonincr (S_ n).
Proof. unfold S_. auto using nonincr_U with dec. Qed.

Lemma nonincr_read_declared n : nonincr (read_declared n).
Proof.
  intros d a d' H. unfold read_declared in H.
  destruct (n <? 0); [discriminate|].
  destruct (_ <? _)%nat; [discriminate|].
  now apply nonincr_read_bytes in H.
Qed.

Lemma nonincr_text n : nonincr (text n).
Proof.
  unfold text. apply nonincr_bind; [apply nonincr_read_declared|].
  intros bs. destruct (utf8_valid bs); auto with dec.
Qed.

#[local] Hint Resolve nonincr_U nonincr_S nonincr_read_declared nonincr_text : dec.

Lemma nonincr_FieldStruct {A} name (fn : Dec A) :
  nonincr fn -> nonincr (FieldStruct name fn).
Proof.
  intros Hf d a d' H. unfold FieldStruct in H.
  destruct (fn _) as [[a1 d1]|e] eqn:E; [|discriminate].
  inversion H; subst. apply Hf in E. exact E.
Qed.

Lemma consuming_FieldStruct {A} name (fn : Dec A) :
  consuming fn -> consuming (FieldStruct name fn).
Proof.
  intros Hf d a d' H. unfold FieldStruct in H.
  destruct (fn _) as [[a1 d1]|e] eqn:E; [|discriminate].
  inversion H; subst. apply Hf in E. exact E.
Qed.

Lemma nonincr_FieldArray {A} name (fn : Dec A) :
  nonincr fn -> nonincr (FieldArray name fn).
Proof.
  intros Hf d a d' H. unfold FieldArray in H.
  destruct (fn _) as [[a1 d1]|e] eqn:E; [|discriminate].
  inversion H; subst. apply Hf in E. exact E.
Qed.

Lemma nonincr_times n m : nonincr m -> nonincr (times n m).
Proof. intros Hm. induction n; cbn; auto with dec. Qed.

#[local] Hint Resolve nonincr_FieldStruct nonincr_FieldArray nonincr_times : dec.

Lemma nonincr_FieldStructNArray name sname count fn :
  nonincr fn -> nonincr (FieldStructNArray name sname count fn).
Proof.
  intros Hf. unfold FieldStructNArray. auto with dec.
Qed.

Lemma nonincr_void {A} (m : Dec A) : nonincr m -> nonincr (void m).
Proof. unfold void. auto with dec. Qed.

#[local] Hint Resolve nonincr_FieldStructNArray nonincr_void : dec.

Lemma nonincr_fields :
  (forall name, nonincr (FieldU8 name)) /\
  (forall name, nonincr (FieldU32 name)) /\
  (forall name, nonincr (FieldS32 name)) /\
  (forall name, nonincr (FieldS64 name)) /\
  (forall name, nonincr (FieldF64 name)) /\
  (forall name n, nonincr (FieldRawLen name n)) /\
  (forall name n, nonincr (FieldStr name n)) /\
  (forall name, nonincr (FieldUTF8ShortString name)).
Proof.
  unfold FieldU8, FieldU32, FieldS32, FieldS64, FieldF64, FieldRawLen,
    FieldStr, FieldUTF8ShortString, U8.
  repeat split; intros; auto 8 with dec.
Qed.

Lemma nonincr_FieldU8 name : nonincr (FieldU8 name).
Proof. apply nonincr_fields. Qed.
Lemma nonincr_FieldU32 name : nonincr (FieldU32 name).
Proof. apply nonincr_fields. Qed.
Lemma nonincr_FieldS32 name : nonincr (FieldS32 name).
Proof. apply nonincr_fields. Qed.
Lemma nonincr_FieldS64 name : nonincr (FieldS64 name).
Proof. apply nonincr_fields. Qed.
Lemma nonincr_FieldF64 name : nonincr (FieldF64 name).
Proof. apply nonincr_fields. Qed.
Lemma nonincr_FieldRawLen name n : nonincr (FieldRawLen name n).
Proof. apply nonincr_fields. Qed.
Lemma nonincr_FieldStr name n : nonincr (FieldStr name n).
Proof. apply nonincr_fields. Qed.
Lemma nonincr_FieldUTF8ShortString name : nonincr (FieldUTF8ShortString name).
Proof. apply nonincr_fields. Qed.

#[local] Hint Resolve nonincr_FieldU8 nonincr_FieldU32 nonincr_FieldS32
  nonincr_FieldS64 nonincr_FieldF64 nonincr_FieldRawLen nonincr_FieldStr
  nonincr_FieldUTF8ShortString : dec.

Lemma nonincr_dict_loop rec n : nonincr rec -> nonincr (dict_loop rec n).
Proof.
  intros Hr. induction n; cbn [dict_loop]; auto with dec.
  apply nonincr_bind; [auto with dec|].
  intros [|]; [auto with dec|].
  apply nonincr_bind; [auto with dec|].
  intros [|]; auto with dec.
Qed.

Lemma nonincr_dict_items rec :
  nonincr rec ->
  nonincr (fun d => dict_loop rec (S (List.length (buf d))) d).
Proof. intros Hr d a d' H. now apply nonincr_dict_loop in H. Qed.

#[local] Hint Resolve nonincr_dict_items : dec.

Ltac split_ifs :=
  repeat match goal with
         | |- context [if ?c then _ else _] => destruct c
         end.

Lemma consuming_read_type : consuming read_type.
Proof.
  unfold read_type, FieldUintFn.
  apply consuming_bind; [|auto with dec].
  apply consuming_bind; [apply consuming_U | auto with dec].
Qed.

Lemma nonincr_switch rec ty : nonincr rec -> nonincr (r_object_switch rec ty).
Proof.
  intros Hr. unfold r_object_switch, read_list, panic.
  split_ifs; auto 20 with dec.
Qed.

Lemma consuming_body rec : nonincr rec -> consuming (r_object_body rec).
Proof.
  intros Hr. unfold r_object_body.
  apply consuming_bind; [apply consuming_read_type|].
  intros ty. auto using nonincr_switch with dec.
Qed.

Lemma consuming_r_object_fuel fuel : consuming (r_object_fuel fuel).
Proof.
  induction fuel; cbn [r_object_fuel].
  - intros d a d' H. discriminate.
  - apply consuming_body. auto with dec.
Qed.

(** ** The fuel is enough *)

Lemma fueled_ret {A} n (a : A) : fueled n (ret a).
Proof. intros d _. discriminate. Qed.

Lemma fueled_fail {A} n e : e <> OutOfFuel -> fueled n (@fail A e).
Proof. intros He d _ H. inversion H. contradiction. Qed.

Lemma fueled_bind {A B} n (m : Dec A) (k : A -> Dec B) :
  fueled n m -> nonincr m -> (forall a, fueled n (k a)) -> fueled n (bind m k).
Proof.
  intros Hm Hn Hk d Hd. unfold bind.
  destruct (m d) as [[a d1]|e] eqn:E.
  - apply Hk. apply Hn in E. lia.
  - intros H. injection H as ->. now apply (Hm d Hd).
Qed.

Lemma fueled_at {A} n (m : Dec A) d :
  fueled n m -> (List.length (buf d) < n)%nat -> m d <> Err OutOfFuel.
Proof. intros H. apply H. Qed.

Lemma not_oof_Err {A B} (m : Dec A) d e :
  m d = Err e -> m d <> Err OutOfFuel -> @Err B e <> Err OutOfFuel.
Proof. intros E H H'. injection H' as ->. exact (H E). Qed.

Lemma fueled_read_bytes n k : fueled n (read_bytes k).
Proof.
  intros d _. unfold read_bytes. destruct (_ <=? _)%nat; discriminate.
Qed.

Lemma fueled_add_field n name v : fueled n (add_field name v).
Proof. intros d _. discriminate. Qed.

#[local] Hint Resolve fueled_ret fueled_bind fueled_read_bytes fueled_add_field : dec.

Lemma fueled_U n k : fueled n (U k).
Proof.
  intros d Hd. unfold U.
  assert (H : fueled n (bs <- read_bytes k ;; ret (uint_of_bytes (Endian d) bs)))
    by auto with dec.
  now apply H.
Qed.

Lemma fueled_read_declared n k : fueled n (read_declared k).
Proof.
  intros d Hd. unfold read_declared.
  destruct (k <? 0); [discriminate|].
  destruct (_ <? _)%nat; [discriminate|].
  apply (fueled_at n); [apply fueled_read_bytes | assumption].
Qed.

#[local] Hint Resolve fueled_U fueled_read_declared : dec.

Lemma fueled_text n k : fueled n (text k).
Proof.
  unfold text. apply fueled_bind; auto with dec.
  intros bs. destruct (utf8_valid bs); [auto with dec|].
  now apply fueled_fail.
Qed.

Lemma fueled_FieldStruct {A} n name (fn : Dec A) :
  fueled n fn -> fueled n (FieldStruct name fn).
Proof.
  intros Hf d Hd. unfold FieldStruct.
  destruct (fn _) as [[a1 d1]|e] eqn:E; [discriminate|].
  intros H. injection H as ->. revert E. now apply Hf.
Qed.

Lemma fueled_FieldArray {A} n name (fn : Dec A) :
  fueled n fn -> fueled n (FieldArray name fn).
Proof.
  intros Hf d Hd. unfold FieldArray.
  destruct (fn _) as [[a1 d1]|e] eqn:E; [discriminate|].
  intros H. injection H as ->. revert E. now apply Hf.
Qed.

Lemma fueled_times n k m : fueled n m -> nonincr m -> fueled n (times k m).
Proof. intros Hm Hn. induction k; cbn; auto with dec. Qed.

#[local] Hint Resolve fueled_text fueled_FieldStruct fueled_FieldArray fueled_times : dec.

Lemma fueled_FieldStructNArray n name sname count fn :
  fueled n fn -> nonincr fn -> fueled n (FieldStructNArray name sname count fn).
Proof.
  intros Hf Hn. unfold FieldStructNArray. auto with dec.
Qed.

Lemma fueled_void {A} n (m : Dec A) : fueled n m -> nonincr m -> fueled n (void m).
Proof. unfold void. auto with dec. Qed.

#[local] Hint Resolve fueled_FieldStructNArray fueled_void : dec.

Lemma fueled_fields n :
  (forall name, fueled n (FieldU8 name)) /\
  (forall name, fueled n (FieldU32 name)) /\
  (forall name, fueled n (FieldS32 name)) /\
  (forall name, fueled n (FieldS64 name)) /\
  (forall name, fueled n (FieldF64 name)) /\
  (forall name k, fueled n (FieldRawLen name k)) /\
  (forall name k, fueled n (FieldStr name k)) /\
  (forall name, fueled n (FieldUTF8ShortString name)).
Proof.
  unfold FieldU8, FieldU32, FieldS32, FieldS64, FieldF64, FieldRawLen,
    FieldStr, FieldUTF8ShortString, U8, S_.
  repeat split; intros; auto 10 with dec.
Qed.

Lemma fueled_FieldU8 n name : fueled n (FieldU8 name).
Proof. apply fueled_fields. Qed.
Lemma fueled_FieldU32 n name : fueled n (FieldU32 name).
Proof. apply fueled_fields. Qed.
Lemma fueled_FieldS32 n name : fueled n (FieldS32 name).
Proof. apply fueled_fields. Qed.
Lemma fueled_FieldS64 n name : fueled n (FieldS64 name).
Proof. apply fueled_fields. Qed.
Lemma fueled_FieldF64 n name : fueled n (FieldF64 name).
Proof. apply fueled_fields. Qed.
Lemma fueled_FieldRawLen n name k : fueled n (FieldRawLen name k).
Proof. apply fueled_fields. Qed.
Lemma fueled_FieldStr n name k : fueled n (FieldStr name k).
Proof. apply fueled_fields. Qed.
Lemma fueled_FieldUTF8ShortString n name : fueled n (FieldUTF8ShortString name).
Proof. apply fueled_fields. Qed.

#[local] Hint Resolve fueled_FieldU8 fueled_FieldU32 fueled_FieldS32
  fueled_FieldS64 fueled_FieldF64 fueled_FieldRawLen fueled_FieldStr
  fueled_FieldUTF8ShortString : dec.

(** The dict loop: each round reads a key, so [k] rounds are enough for
    an input shorter than [k]. *)
Lemma dict_loop_fueled rec n :
  consuming rec -> fueled n rec ->
  forall k d, (List.length (buf d) < k)%nat -> (List.length (buf d) < n)%nat ->
    dict_loop rec k d <> Err OutOfFuel.
Proof.
  intros Hc Hf. induction k as [|k IH]; intros d Hk Hn; [lia|].
  cbn [dict_loop]. unfold bind at 1.
  destruct (FieldStruct "key" _ d) as [[e1 d1]|e] eqn:E1.
  - assert (L1 : (List.length (buf d1) < List.length (buf d))%nat).
    { revert E1. apply consuming_FieldStruct, consuming_bind; auto with dec. }
    destruct e1; [discriminate|]. unfold bind at 1.
    destruct (FieldStruct "value" _ d1) as [[e2 d2]|e] eqn:E2.
    + assert (L2 : (List.length (buf d2) < List.length (buf d1))%nat).
      { revert E2. apply consuming_FieldStruct, consuming_bind; auto with dec. }
      destruct e2; [discriminate|]. apply IH; lia.
    + apply (not_oof_Err _ _ _ E2), (fueled_at n); [|lia].
      apply fueled_FieldStruct, fueled_bind; auto with dec.
  - apply (not_oof_Err _ _ _ E1), (fueled_at n); [|lia].
    apply fueled_FieldStruct, fueled_bind; auto with dec.
Qed.

Lemma fueled_dict_items rec n :
  consuming rec -> fueled n rec ->
  fueled n (fun d => dict_loop rec (S (List.length (buf d))) d).
Proof. intros Hc Hf d Hd. apply (dict_loop_fueled rec n); auto. Qed.

#[local] Hint Resolve fueled_dict_items : dec.

Lemma fueled_body rec n :
  consuming rec -> fueled n rec -> fueled (S n) (r_object_body rec).
Proof.
  intros Hc Hf d Hd. unfold r_object_body. unfold bind at 1.
  destruct (read_type d) as [[ty d1]|e] eqn:E.
  - assert (L : (List.length (buf d1) < List.length (buf d))%nat)
      by (revert E; apply consuming_read_type).
    assert (Hn : nonincr rec) by auto with dec.
    apply (fueled_at n); [|lia].
    apply fueled_bind; [|auto using nonincr_switch|auto with dec].
    unfold r_object_switch, read_list, panic.
    split_ifs; auto 20 with dec; now apply fueled_fail.
  - apply (not_oof_Err _ _ _ E), (fueled_at (S n)); [|lia].
    unfold read_type, FieldUintFn, U8. auto 10 with dec.
Qed.

(** [r_object_fuel] never runs out of fuel when given more fuel than
    there are input bytes. *)
Lemma r_object_fuel_enough fuel : fueled fuel (r_object_fuel fuel).
Proof.
  induction fuel; cbn [r_object_fuel].
  - intros d Hd. lia.
  - apply fueled_body; auto using consuming_r_object_fuel.
Qed.

Lemma r_object_total d : r_object d <> Err OutOfFuel.
Proof. unfold r_object. apply (fueled_at _ _ _ (r_object_fuel_enough _)). lia. Qed.

(** ** More fuel changes nothing *)

Lemma refines_refl {A} (m : Dec A) : refines m m.
Proof. intros d _. reflexivity. Qed.

Lemma refines_bind {A B} (m m' : Dec A) (k k' : A -> Dec B) :
  refines m m' -> (forall a, refines (k a) (k' a)) ->
  refines (bind m k) (bind m' k').
Proof.
  intros Hm Hk d H. unfold bind in *.
  destruct (m d) as [[a d1]|e] eqn:E.
  - rewrite (Hm d), E by (rewrite E; discriminate). now apply Hk.
  - rewrite (Hm d), E; [reflexivity|]. rewrite E. intros X. apply H.
    now injection X as ->.
Qed.

Lemma refines_FieldStruct {A} name (fn fn' : Dec A) :
  refines fn fn' -> refines (FieldStruct name fn) (FieldStruct name fn').
Proof.
  intros Hf d H. unfold FieldStruct in *.
  rewrite Hf; [reflexivity|]. intros X. rewrite X in H. now apply H.
Qed.

Lemma refines_FieldArray {A} name (fn fn' : Dec A) :
  refines fn fn' -> refines (FieldArray name fn) (FieldArray name fn').
Proof.
  intros Hf d H. unfold FieldArray in *.
  rewrite Hf; [reflexivity|]. intros X. rewrite X in H. now apply H.
Qed.

Lemma refines_times n m m' : refines m m' -> refines (times n m) (times n m').
Proof.
  intros Hm. induction n; cbn; [apply refines_refl|].
  apply refines_bind; auto.
Qed.

Lemma refines_void {A} (m m' : Dec A) : refines m m' -> refines (void m) (void m').
Proof. intros H. apply refines_bind; auto using refines_refl. Qed.

Lemma refines_read_list rec rec' n :
  refines rec rec' -> refines (read_list rec n) (read_list rec' n).
Proof.
  intros H. unfold read_list, FieldStructNArray.
  auto using refines_FieldArray, refines_times, refines_FieldStruct, refines_void.
Qed.

Lemma refines_dict_loop rec rec' n :
  refines rec rec' -> refines (dict_loop rec n) (dict_loop rec' n).
Proof.
  intros H. induction n; cbn [dict_loop]; [apply refines_refl|].
  apply refines_bind.
  { apply refines_FieldStruct, refines_bind; auto using refines_refl. }
  intros [|]; [apply refines_refl|].
  apply refines_bind.
  { apply refines_FieldStruct, refines_bind; auto using refines_refl. }
  intros [|]; [apply refines_refl|assumption].
Qed.

Lemma refines_dict_items rec rec' :
  refines rec rec' ->
  refines (fun d => dict_loop rec (S (List.length (buf d))) d)
          (fun d => dict_loop rec' (S (List.length (buf d))) d).
Proof. intros H d. now apply refines_dict_loop. Qed.

#[local] Hint Resolve refines_refl refines_bind refines_FieldStruct
  refines_FieldArray refines_void refines_read_list refines_dict_items : dec.

Lemma refines_body rec rec' :
  refines rec rec' -> refines (r_object_body rec) (r_object_body rec').
Proof.
  intros H. unfold r_object_body.
  apply refines_bind; [apply refines_refl|]. intros ty.
  apply refines_bind; [|auto with dec].
  unfold r_object_switch. split_ifs; auto 20 with dec.
Qed.

Lemma r_object_fuel_S fuel : refines (r_object_fuel fuel) (r_object_fuel (S fuel)).
Proof.
  induction fuel.
  - intros d H. now contradiction H.
  - apply refines_body, IHfuel.
Qed.

Lemma r_object_fuel_mono fuel fuel' :
  (fuel <= fuel')%nat -> refines (r_object_fuel fuel) (r_object_fuel fuel').
Proof.
  induction 1 as [|f' Hle IH]; [apply refines_refl|].
  intros d H. rewrite <- (IH d H). apply r_object_fuel_S. now rewrite (IH d H).
Qed.

(** With more fuel than input bytes, [r_object_fuel] is [r_object]. *)
Lemma r_object_fuel_r_object fuel d :
  (List.length (buf d) < fuel)%nat -> r_object_fuel fuel d = r_object d.
Proof.
  intros H. unfold r_object.
  apply r_object_fuel_mono; [lia|]. exact (r_object_total d).
Qed.

Lemma r_object_fuel_refines fuel : refines (r_object_fuel fuel) r_object.
Proof.
  intros d H. destruct (Nat.le_gt_cases fuel (S (List.length (buf d)))) as [L|L].
  - unfold r_object. now apply r_object_fuel_mono.
  - symmetry. apply r_object_fuel_r_object. lia.
Qed.

(** [r_object] satisfies the equation of the source function: it is its
    body, with the recursive calls going to [r_object] itself. *)
Lemma r_object_eq d : r_object d = r_object_body r_object d.
Proof.
  symmetry.
  change (r_object d) with (r_object_body (r_object_fuel (List.length (buf d))) d).
  apply refines_body; [apply r_object_fuel_refines|].
  apply (r_object_total d).
Qed.

(** ** The tag byte *)

Lemma read_type_cons e b rest flds :
  read_type (mkD e (b :: rest) flds) =
  Ok (strip b, mkD e rest (flds ++ [type_field (strip b)])).
Proof.
  unfold read_type, FieldUintFn, U8, U, strip, type_field.
  destruct e; cbn; rewrite Z.add_0_r; reflexivity.
Qed.

Lemma read_type_nil e flds :
  read_type (mkD e [] flds) = Err (TruncatedInput 1 0).
Proof. reflexivity. Qed.

Lemma read_type_Ok d ty d1 :
  read_type d = Ok (ty, d1) ->
  exists b rest, buf d = b :: rest /\ ty = strip b /\
    d1 = mkD (Endian d) rest (children d ++ [type_field ty]).
Proof.
  destruct d as [e [|b rest] flds]; [discriminate|].
  rewrite read_type_cons. intros H. inversion H; subst.
  exists b, rest. repeat split.
Qed.

Lemma strip_range b : 0 <= strip b <= 127.
Proof. destruct b; vm_compute; split; discriminate. Qed.

Lemma strip_flag_clear b : Z.land (strip b) FLAG_REF = 0.
Proof. destruct b; reflexivity. Qed.

(** One step of [r_object] on an input that has a tag byte. *)
Lemma r_object_cons e b rest flds :
  r_object (mkD e (b :: rest) flds) =
  (r_object_switch r_object (strip b) ;; ret (strip b))
    (mkD e rest (flds ++ [type_field (strip b)])).
Proof.
  rewrite r_object_eq. unfold r_object_body.
  now rewrite (bind_step _ _ _ _ _ (read_type_cons e b rest flds)).
Qed.

Lemma r_object_nil e flds : r_object (mkD e [] flds) = Err (TruncatedInput 1 0).
Proof. reflexivity. Qed.

Lemma r_object_tag d ty d' :
  r_object d = Ok (ty, d') -> exists b rest, buf d = b :: rest /\ ty = strip b.
Proof.
  rewrite r_object_eq. unfold r_object_body. intros H.
  apply bind_Ok in H as (ty1 & d1 & H1 & H2).
  apply bind_Ok in H2 as ([] & d2 & _ & H3).
  inversion H3; subst.
  apply read_type_Ok in H1 as (b & rest & E & T & _). eauto.
Qed.

(** C9: the tag that [r_object] returns is the tag byte without the
    reference flag: bit 0x80 is clear and the value is at most 0x7F,
    whatever the input was.  A Null byte with the flag set (0xB0) comes
    back as [TYPE_NULL], and ends a dict like the plain one. *)
Theorem r_object_returns_stripped_tag :
  (forall d ty d',
     r_object d = Ok (ty, d') ->
     0 <= ty <= 127 /\ Z.land ty FLAG_REF = 0 /\ Z.testbit ty 7 = false) /\
  (forall e rest flds,
     r_object (mkD e (xb0 :: rest) flds) =
     Ok (TYPE_NULL, mkD e rest (flds ++ [type_field TYPE_NULL]))) /\
  (forall e rest flds,
     r_object (mkD e (x7b :: xb0 :: rest) flds) =
     Ok (TYPE_DICT,
         mkD e rest
           (flds ++ [type_field TYPE_DICT;
                     ("items", Array [("key", Struct [type_field TYPE_NULL])])]))).
Proof.
  split; [|split].
  - intros d ty d' H. apply r_object_tag in H as (b & rest & _ & ->).
    split; [apply strip_range|]. split; [apply strip_flag_clear|].
    destruct b; reflexivity.
  - intros e rest flds. now rewrite r_object_cons.
  - intros e rest flds.
    do 2 (rewrite r_object_cons; cbv -[r_object app]).
    rewrite <- !app_assoc. reflexivity.
Qed.

Lemma r_object_returns_stripped_tag_witness :
  r_object (mkD LittleEndian [xe9; x2a; x00; x00; x00] []) =
    Ok (TYPE_INT,
        mkD LittleEndian [] [type_field TYPE_INT; ("value", Sint 42)]) /\
  (0 <= TYPE_INT <= 127 /\ Z.land TYPE_INT FLAG_REF = 0 /\
   Z.testbit TYPE_INT 7 = false).
Proof.
  destruct r_object_returns_stripped_tag as (H & _).
  split; [reflexivity|].
  apply (H (mkD LittleEndian [xe9; x2a; x00; x00; x00] []) TYPE_INT
           (mkD LittleEndian [] [type_field TYPE_INT; ("value", Sint 42)])).
  reflexivity.
Defined.

(** ** The reference flag *)

(** C5: a tag byte with the reference flag set decodes exactly as the
    same tag byte without it: same result, same fields, same input left;
    the flag is removed before the switch. *)
Theorem flag_ref_never_changes_decoding (t f : byte) e rest flds :
  byte_val t < 128 ->
  byte_val f = Z.lor FLAG_REF (byte_val t) ->
  r_object (mkD e (f :: rest) flds) = r_object (mkD e (t :: rest) flds).
Proof.
  intros _ Hf. rewrite !r_object_cons.
  assert (E : strip f = strip t).
  { unfold strip. rewrite Hf. destruct t; reflexivity. }
  now rewrite E.
Qed.

Lemma flag_ref_never_changes_decoding_witness :
  r_object (mkD LittleEndian [xe9; x2a; x00; x00; x00] []) =
  r_object (mkD LittleEndian [x69; x2a; x00; x00; x00] []).
Proof.
  apply (flag_ref_never_changes_decoding x69 xe9); [reflexivity | reflexivity].
Defined.

(** ** Tags without a case *)

Lemma switch_no_case rec b :
  UintMap_lookup typeMap (strip b) = None ->
  r_object_switch rec (strip b) = ret tt.
Proof.
  intros H. destruct b; try (vm_compute in H; discriminate H); reflexivity.
Qed.

(** C2 (as amended): a tag byte whose stripped value is not in the tag
    table is not rejected.  The switch has no case for it and no default,
    so [r_object] reads the tag byte only, stores it as the field "type"
    without a symbol, and returns the tag as for an object without
    payload. *)
Theorem unknown_tag_is_accepted b e rest flds :
  UintMap_lookup typeMap (strip b) = None ->
  r_object (mkD e (b :: rest) flds) =
  Ok (strip b, mkD e rest (flds ++ [("type", Uint (strip b) None)])).
Proof.
  intros H. rewrite r_object_cons, (switch_no_case _ _ H).
  unfold type_field. now rewrite H.
Qed.

Lemma unknown_tag_is_accepted_witness :
  r_object (mkD LittleEndian [x01; x4e] []) =
  Ok (1, mkD LittleEndian [x4e] [("type", Uint 1 None)]).
Proof.
  apply (unknown_tag_is_accepted x01 LittleEndian [x4e] []). reflexivity.
Defined.

(** C2, the claim as stated, fails: byte 0x01 is in no table, and
    decoding it returns an object. *)
Lemma unknown_tag_counterexample :
  UintMap_lookup typeMap (strip x01) = None /\
  r_object (mkD LittleEndian [x01] []) =
    Ok (1, mkD LittleEndian [] [("type", Uint 1 None)]) /\
  ~ unknown_tag_fails.
Proof.
  split; [reflexivity|]. split; [reflexivity|].
  intros H. destruct (H x01 (mkD LittleEndian [x01] []) [] eq_refl eq_refl) as [e He].
  discriminate He.
Qed.

(** ** The entry point *)

Lemma decodePYC_header e hdr body flds :
  List.length hdr = 16%nat ->
  decodePYC (mkD e (hdr ++ body) flds) =
  (FieldStruct "object" r_object ;; ret tt)
    (mkD LittleEndian body (flds ++ header_fields hdr)).
Proof.
  intros H.
  do 16 (destruct hdr as [|? hdr]; [discriminate H|]).
  destruct hdr; [|discriminate H].
  cbn [app]. unfold decodePYC, header_fields.
  cbv -[r_object FieldStruct le_uint app].
  repeat rewrite <- app_assoc. reflexivity.
Qed.

Lemma FieldStruct_Ok {A} name (fn : Dec A) d a d' :
  fn (mkD (Endian d) (buf d) []) = Ok (a, d') ->
  FieldStruct name fn d =
  Ok (a, mkD (Endian d) (buf d') (children d ++ [(name, Struct (children d'))])).
Proof. unfold FieldStruct. now intros ->. Qed.

Lemma FieldStruct_Err {A} name (fn : Dec A) d e :
  fn (mkD (Endian d) (buf d) []) = Err e -> FieldStruct name fn d = Err e.
Proof. unfold FieldStruct. now intros ->. Qed.

(** ** Variants that are not implemented *)

(** C3 (as amended): when the tag is long, float, complex or slice,
    [r_object] does not end with a decode error: it stops with the Go
    panic "<name> not implemented", where <name> is the symbol of the tag
    in [typeMap].  Nothing is returned and nothing is skipped, whatever
    follows the tag byte; nothing in [r_object] or [decodePYC] recovers
    the panic, so it is the outcome of [decodePYC] too when the object is
    the top-level one. *)
Theorem unsupported_variant_panics b e rest flds :
  In (strip b) [TYPE_LONG; TYPE_FLOAT; TYPE_COMPLEX; TYPE_SLICE] ->
  exists sym desc,
    UintMap_lookup typeMap (strip b) = Some (sym, desc) /\
    r_object (mkD e (b :: rest) flds) =
      Err (GoPanic (sym ++ " not implemented")%string) /\
    forall hdr,
      List.length hdr = 16%nat ->
      decodePYC (mkD e (hdr ++ b :: rest) flds) =
        Err (GoPanic (sym ++ " not implemented")%string).
Proof.
  intros H.
  assert (P : exists sym desc,
    UintMap_lookup typeMap (strip b) = Some (sym, desc) /\
    forall e flds, r_object (mkD e (b :: rest) flds) =
      Err (GoPanic (sym ++ " not implemented")%string)).
  { destruct H as [H|[H|[H|[H|[]]]]];
      eexists; eexists; (split; [rewrite <- H; reflexivity|]);
      intros e' flds'; rewrite r_object_cons, <- H; reflexivity. }
  destruct P as (sym & desc & L & P). exists sym, desc.
  split; [exact L|]. split; [apply P|].
  intros hdr Hh. rewrite (decodePYC_header _ _ _ _ Hh).
  apply bind_Err, FieldStruct_Err, P.
Qed.

Lemma unsupported_variant_panics_witness :
  exists sym desc,
    UintMap_lookup typeMap (strip x6c) = Some (sym, desc) /\
    r_object (mkD LittleEndian [x6c; x01; x00; x00; x00; x01; x00] []) =
      Err (GoPanic (sym ++ " not implemented")%string) /\
    forall hdr,
      List.length hdr = 16%nat ->
      decodePYC (mkD LittleEndian (hdr ++ [x6c; x01; x00; x00; x00; x01; x00]) []) =
        Err (GoPanic (sym ++ " not implemented")%string).
Proof.
  apply (unsupported_variant_panics x6c). left. reflexivity.
Defined.

(** C3, the claim as stated, fails: byte 'l' (long) ends the decode with
    a panic, not with an error of the decoder. *)
Lemma unsupported_variant_counterexample :
  r_object (mkD LittleEndian [x6c] []) = Err (GoPanic "long not implemented") /\
  is_panic (GoPanic "long not implemented") = true /\
  ~ unsupported_variant_is_error.
Proof.
  split; [reflexivity|]. split; [reflexivity|].
  intros H.
  destruct (H x6c (mkD LittleEndian [x6c] []) []) as (err & E & P).
  - reflexivity.
  - cbn. auto.
  - change (r_object (mkD LittleEndian [x6c] []))
      with (@Err (Z * D) (GoPanic "long not implemented")) in E.
    injection E as <-. discriminate P.
Qed.

(** ** Nesting *)

Lemma nested_tuples_decode n : forall rest flds,
  r_object (mkD LittleEndian (nested_tuples n [x4e] ++ rest) flds) =
  Ok (nested_tag n, mkD LittleEndian rest (flds ++ nested_fields n)).
Proof.
  induction n as [|n IH]; intros rest flds.
  - cbn [nested_tuples app]. now rewrite r_object_cons.
  - cbn [nested_tuples app]. rewrite r_object_cons.
    cbv -[r_object nested_tuples nested_fields app].
    rewrite IH. cbn. rewrite <- !app_assoc. reflexivity.
Qed.

Lemma r_object_fuel_cons fuel e b rest flds :
  r_object_fuel (S fuel) (mkD e (b :: rest) flds) =
  (r_object_switch (r_object_fuel fuel) (strip b) ;; ret (strip b))
    (mkD e rest (flds ++ [type_field (strip b)])).
Proof.
  cbn [r_object_fuel]. unfold r_object_body.
  now rewrite (bind_step _ _ _ _ _ (read_type_cons e b rest flds)).
Qed.

Lemma nested_tuples_too_deep n : forall rest flds,
  r_object_fuel n (mkD LittleEndian (nested_tuples n [x4e] ++ rest) flds) =
  Err OutOfFuel.
Proof.
  induction n as [|n IH]; intros rest flds; [reflexivity|].
  cbn [nested_tuples app]. rewrite r_object_fuel_cons.
  cbv -[r_object_fuel nested_tuples nested_fields app].
  now rewrite IH.
Qed.

Lemma nested_tuples_deep_enough n : forall rest flds,
  r_object_fuel (S n) (mkD LittleEndian (nested_tuples n [x4e] ++ rest) flds) =
  Ok (nested_tag n, mkD LittleEndian rest (flds ++ nested_fields n)).
Proof.
  induction n as [|n IH]; intros rest flds.
  - cbn [nested_tuples app]. now rewrite r_object_fuel_cons.
  - cbn [nested_tuples app]. rewrite r_object_fuel_cons.
    cbv -[r_object_fuel nested_tuples nested_fields app].
    rewrite IH. cbn. rewrite <- !app_assoc. reflexivity.
Qed.

(** C4 (as amended): the decoder has no depth limit and no error for
    one; the recursion is exactly as deep as the input is nested.  [n]
    single-element tuples nested around None take [n + 1] nested calls of
    [r_object], for every [n]: with room for that many calls the [n]
    nested objects come back, with room for [n] calls only the recursion
    is still going down when the room is used up.  Nothing but the call
    stack ends it. *)
Theorem nesting_depth_is_not_bounded n rest flds :
  r_object_fuel n (mkD LittleEndian (nested_tuples n [x4e] ++ rest) flds) =
    Err OutOfFuel /\
  r_object_fuel (S n) (mkD LittleEndian (nested_tuples n [x4e] ++ rest) flds) =
    Ok (nested_tag n, mkD LittleEndian rest (flds ++ nested_fields n)).
Proof.
  split; [apply nested_tuples_too_deep | apply nested_tuples_deep_enough].
Qed.

(** C4, the claim as stated, fails: whatever the bound, a deeper input
    decodes without error. *)
Lemma depth_bound_counterexample : ~ depth_is_bounded.
Proof.
  intros [bound H]. destruct (H (S bound)) as [e He]; [lia|].
  rewrite <- (app_nil_r (nested_tuples _ _)), nested_tuples_decode in He.
  discriminate He.
Qed.

(** ** The code record *)

Lemma byte_val_range b : 0 <= byte_val b < 256.
Proof. destruct b; vm_compute; (split; [discriminate | reflexivity]). Qed.

Lemma le_uint_range bs : 0 <= le_uint bs < 256 ^ Z.of_nat (List.length bs).
Proof.
  induction bs as [|b bs IH]; [cbn; lia|].
  cbn [le_uint List.length]. rewrite Nat2Z.inj_succ, Z.pow_succ_r by lia.
  pose proof (byte_val_range b). lia.
Qed.

Lemma U_Ok n d u d' :
  U n d = Ok (u, d') ->
  0 <= u < 256 ^ Z.of_nat n /\
  Endian d' = Endian d /\ children d' = children d.
Proof.
  unfold U. intros H. apply bind_Ok in H as (bs & d1 & H1 & H2).
  apply read_bytes_Ok in H1 as (_ & L & E & C).
  inversion H2; subst. split; [|now split].
  unfold uint_of_bytes. destruct (Endian d).
  - rewrite <- length_rev. apply le_uint_range.
  - apply le_uint_range.
Qed.

Lemma FieldS32_Ok name d x d' :
  FieldS32 name d = Ok (x, d') ->
  children d' = children d ++ [(name, Sint x)] /\ - 2 ^ 31 <= x < 2 ^ 31.
Proof.
  unfold FieldS32, S_. intros H.
  apply bind_Ok in H as (v & d1 & H1 & H2).
  apply bind_Ok in H1 as (u & d0 & H0 & H1).
  apply U_Ok in H0 as (R & _ & C).
  inversion H1; subst. inversion H2; subst. cbn [children]. rewrite C.
  split; [reflexivity|].
  unfold to_signed. change (8 * Z.of_nat 4) with 32 in *.
  change (256 ^ Z.of_nat 4) with (2 ^ 32) in R.
  destruct (Z.ltb_spec u (2 ^ (32 - 1))); change (2 ^ (32 - 1)) with (2 ^ 31) in *; lia.
Qed.

Lemma FieldU32_Ok name d x d' :
  FieldU32 name d = Ok (x, d') ->
  children d' = children d ++ [(name, Uint x None)] /\ 0 <= x < 2 ^ 32.
Proof.
  unfold FieldU32. intros H.
  apply bind_Ok in H as (u & d0 & H0 & H1).
  apply U_Ok in H0 as (R & _ & C).
  inversion H1; subst. cbn [children]. rewrite C.
  split; [reflexivity|exact R].
Qed.

Lemma FieldStruct_inv {A} name (fn : Dec A) d a d' :
  FieldStruct name fn d = Ok (a, d') ->
  exists fs, children d' = children d ++ [(name, Struct fs)].
Proof.
  unfold FieldStruct. destruct (fn _) as [[a1 d1]|e]; [|discriminate].
  intros H. inversion H; subst. cbn. eauto.
Qed.

Lemma void_Ok {A} (m : Dec A) d d' :
  void m d = Ok (tt, d') -> exists a, m d = Ok (a, d').
Proof.
  unfold void. intros H. apply bind_Ok in H as (a & d1 & H1 & H2).
  inversion H2; subst. eauto.
Qed.

Lemma decode_field_Ok rec name k d d' :
  decode_field rec (name, k) d = Ok (tt, d') ->
  exists v, children d' = children d ++ [(name, v)] /\ has_kind k v.
Proof.
  unfold decode_field. cbn [fst snd]. destruct k; intros H;
    apply void_Ok in H as (a & H).
  - apply FieldS32_Ok in H as (C & R). exists (Sint a). now split.
  - apply FieldU32_Ok in H as (C & R). exists (Uint a None). now split.
  - apply FieldStruct_inv in H as (fs & C). exists (Struct fs). now split.
Qed.

Lemma decode_record_Ok rec l : forall d d',
  decode_record rec l d = Ok (tt, d') ->
  exists vs, children d' = children d ++ vs /\
             map fst vs = map fst l /\
             Forall2 has_kind (map snd l) (map snd vs).
Proof.
  induction l as [|[name k] l IH]; intros d d' H.
  - inversion H; subst. exists []. rewrite app_nil_r. repeat split. constructor.
  - cbn [decode_record] in H. apply bind_Ok in H as ([] & d1 & H1 & H2).
    apply decode_field_Ok in H1 as (v & C1 & K).
    apply IH in H2 as (vs & C2 & N & F).
    exists ((name, v) :: vs). rewrite C2, C1, <- app_assoc. cbn.
    repeat split; [now f_equal | now constructor].
Qed.

Lemma bind_void {A B} (m : Dec A) (k : Dec B) d :
  bind (void m) (fun _ => k) d = bind m (fun _ => k) d.
Proof. unfold void, bind, ret. now destruct (m d) as [[a d1]|e]. Qed.

Lemma bind_ext {A B} (m : Dec A) (k k' : A -> Dec B) d :
  (forall a d1, k a d1 = k' a d1) -> bind m k d = bind m k' d.
Proof. intros H. unfold bind. destruct (m d) as [[a d1]|e]; auto. Qed.

Lemma switch_code rec d :
  r_object_switch rec TYPE_CODE d = decode_record rec code_layout d.
Proof.
  unfold r_object_switch.
  cbn -[bind ret void FieldS32 FieldU32 FieldStruct].
  unfold code_layout, decode_record, decode_field. cbn [fst snd].
  repeat (rewrite bind_void; apply bind_ext; intros _ ?).
  reflexivity.
Qed.

(** C6: the code case decodes the record that the layout
    [argcount:i32, posonlyargcount:i32, kwonlyargcount:i32, stacksize:i32,
    flags:i32, code:Object, consts:Object, names:Object,
    localsplusnames:Object, localspluskinds:Object, filename:Object,
    name:Object, qualname:Object, firstlineno:u32, linetable:Object,
    exceptiontable:Object] describes: sixteen fields, read in this order,
    an i32 as a 32-bit signed integer, firstlineno as a 32-bit unsigned
    integer, an Object by one run of [r_object]; when it returns, the
    object has exactly these sixteen fields after its tag. *)
Theorem code_record_fields_in_order :
  List.length code_layout = 16%nat /\
  (forall rec d,
     r_object_switch rec TYPE_CODE d = decode_record rec code_layout d) /\
  (forall b e rest flds,
     strip b = TYPE_CODE ->
     r_object (mkD e (b :: rest) flds) =
     (decode_record r_object code_layout ;; ret TYPE_CODE)
       (mkD e rest (flds ++ [type_field TYPE_CODE]))) /\
  (forall b e rest flds ty d',
     strip b = TYPE_CODE ->
     r_object (mkD e (b :: rest) flds) = Ok (ty, d') ->
     exists vs,
       children d' = flds ++ type_field TYPE_CODE :: vs /\
       map fst vs =
         ["argcount"; "posonlyargcount"; "kwonlyargcount"; "stacksize";
          "flags"; "code"; "consts"; "names"; "localsplusnames";
          "localspluskinds"; "filename"; "name"; "qualname"; "firstlineno";
          "linetable"; "exceptiontable"] /\
       Forall2 has_kind
         [i32; i32; i32; i32; i32; Object; Object; Object; Object; Object;
          Object; Object; Object; u32; Object; Object]
         (map snd vs)).
Proof.
  assert (S3 : forall b e rest flds,
     strip b = TYPE_CODE ->
     r_object (mkD e (b :: rest) flds) =
     (decode_record r_object code_layout ;; ret TYPE_CODE)
       (mkD e rest (flds ++ [type_field TYPE_CODE]))).
  { intros b e rest flds H. rewrite r_object_cons, H.
    unfold bind. now rewrite switch_code. }
  split; [reflexivity|]. split; [exact switch_code|]. split; [exact S3|].
  intros b e rest flds ty d' Hb H. rewrite (S3 _ _ _ _ Hb) in H.
  apply bind_Ok in H as ([] & d1 & H1 & H2). inversion H2; subst.
  apply decode_record_Ok in H1 as (vs & C & N & F). cbn [children] in C.
  exists vs. rewrite C, <- app_assoc. now repeat split.
Qed.

Lemma code_record_fields_in_order_witness :
  exists d',
    r_object (mkD LittleEndian sample_code []) = Ok (TYPE_CODE, d') /\
    exists vs,
      children d' = [] ++ type_field TYPE_CODE :: vs /\
      map fst vs =
        ["argcount"; "posonlyargcount"; "kwonlyargcount"; "stacksize";
         "flags"; "code"; "consts"; "names"; "localsplusnames";
         "localspluskinds"; "filename"; "name"; "qualname"; "firstlineno";
         "linetable"; "exceptiontable"] /\
      Forall2 has_kind
        [i32; i32; i32; i32; i32; Object; Object; Object; Object; Object;
         Object; Object; Object; u32; Object; Object]
        (map snd vs).
Proof.
  destruct code_record_fields_in_order as (_ & _ & _ & H).
  eexists. split.
  - vm_compute. reflexivity.
  - apply (H x63 LittleEndian (tl sample_code) [] TYPE_CODE);
      [reflexivity | vm_compute; reflexivity].
Defined.

(** ** Counts and lengths *)

Lemma FieldS32_cons name e c0 c1 c2 c3 rest flds :
  FieldS32 name (mkD e (c0 :: c1 :: c2 :: c3 :: rest) flds) =
  Ok (s32 e c0 c1 c2 c3,
      mkD e rest (flds ++ [(name, Sint (s32 e c0 c1 c2 c3))])).
Proof. reflexivity. Qed.

Lemma read_list_no_round rec n d :
  n <= 0 ->
  read_list rec n d =
  Ok (tt, mkD (Endian d) (buf d) (children d ++ [("items", Array [])])).
Proof.
  intros H. unfold read_list, FieldStructNArray.
  replace (Z.to_nat n) with 0%nat by lia. reflexivity.
Qed.

Lemma read_declared_negative n d :
  n < 0 -> read_declared n d = Err (MalformedLength n).
Proof.
  intros H. unfold read_declared. now destruct (Z.ltb_spec n 0); [|lia].
Qed.

Lemma FieldRawLen_negative name n d :
  n < 0 -> FieldRawLen name (n * 8) d = Err (MalformedLength n).
Proof.
  intros H. unfold FieldRawLen. rewrite Z.div_mul by lia.
  apply bind_Err, read_declared_negative, H.
Qed.

Lemma FieldStr_negative name n d :
  n < 0 -> FieldStr name n d = Err (MalformedLength n).
Proof.
  intros H. unfold FieldStr, text.
  apply bind_Err, bind_Err, read_declared_negative, H.
Qed.

Lemma times_items rec n : forall d d',
  times n (FieldStruct "item" (void rec)) d = Ok (tt, d') ->
  exists items,
    reads_items rec (Endian d) (buf d) items (buf d') /\
    List.length items = n /\
    d' = mkD (Endian d) (buf d') (children d ++ items).
Proof.
  induction n as [|n IH]; intros d d' H.
  - inversion H; subst. exists []. rewrite app_nil_r.
    destruct d'; repeat split. constructor.
  - cbn [times] in H. apply bind_Ok in H as ([] & d1 & H1 & H2).
    unfold FieldStruct in H1.
    destruct (void rec _) as [[[] dd]|] eqn:E; [|discriminate].
    inversion H1; subst; clear H1.
    apply void_Ok in E as (ty & E).
    apply IH in H2 as (items & R & L & ->). cbn [Endian buf children] in *.
    exists (("item", Struct (children dd)) :: items).
    rewrite <- app_assoc. repeat split; [|cbn; now f_equal].
    econstructor; eassumption.
Qed.

Lemma items_times rec e s items s' :
  reads_items rec e s items s' ->
  forall flds,
    times (List.length items) (FieldStruct "item" (void rec)) (mkD e s flds) =
    Ok (tt, mkD e s' (flds ++ items)).
Proof.
  induction 1 as [s|s ty d1 items s' H R IH]; intros flds.
  - cbn. now rewrite app_nil_r.
  - cbn [List.length times].
    erewrite bind_step.
    2:{ apply FieldStruct_Ok. cbn [Endian buf]. unfold void.
        erewrite bind_step by eassumption. reflexivity. }
    cbn [Endian buf children]. rewrite IH, <- app_assoc. reflexivity.
Qed.

Lemma read_list_items rec n d d' :
  read_list rec n d = Ok (tt, d') <->
  exists items,
    reads_items rec (Endian d) (buf d) items (buf d') /\
    List.length items = Z.to_nat n /\
    d' = mkD (Endian d) (buf d') (children d ++ [("items", Array items)]).
Proof.
  unfold read_list, FieldStructNArray, FieldArray. split.
  - destruct (times _ _ _) as [[[] d1]|] eqn:E; [|discriminate].
    intros X. inversion X; subst; clear X.
    apply times_items in E as (items & R & L & ->). cbn in *.
    exists items. now repeat split.
  - intros (items & R & L & ->). rewrite <- L.
    now rewrite (items_times _ _ _ _ _ R).
Qed.

Lemma switch_count rec ty :
  In ty count_tags ->
  r_object_switch rec ty = (n <- FieldS32 "n" ;; read_list rec n).
Proof.
  unfold count_tags. cbn [In].
  intros [H|[H|[H|[H|[]]]]]; rewrite <- H; reflexivity.
Qed.

Lemma negative_count_decodes b e c0 c1 c2 c3 rest flds :
  In (strip b) count_tags ->
  s32 e c0 c1 c2 c3 <= 0 ->
  r_object (mkD e (b :: c0 :: c1 :: c2 :: c3 :: rest) flds) =
  Ok (strip b,
      mkD e rest
        (flds ++ [type_field (strip b); ("n", Sint (s32 e c0 c1 c2 c3));
                  ("items", Array [])])).
Proof.
  intros Hb Hn. rewrite r_object_cons, (switch_count _ _ Hb).
  unfold bind at 1 2.
  rewrite FieldS32_cons, (read_list_no_round _ _ _ Hn).
  cbn. now rewrite <- !app_assoc.
Qed.

(** C7 (as amended): after string, ascii and unicode (and the interned
    forms) a negative 4-byte length is a malformed-length error.  After
    tuple, list, set and frozenset a negative 4-byte count is no error:
    the sequence helper makes no round, the object comes back with the
    negative "n" and an empty array, and only the count was read.  For a
    count [n >= 0] the helper returns exactly when [n] objects can be
    decoded one after the other, and then the array "items" holds these
    [n] objects in the order of the input; with count 0 it returns the
    empty array and reads nothing. *)
Theorem counts_and_lengths :
  (forall b e c0 c1 c2 c3 rest flds,
     In (strip b) length_tags ->
     s32 e c0 c1 c2 c3 < 0 ->
     r_object (mkD e (b :: c0 :: c1 :: c2 :: c3 :: rest) flds) =
     Err (MalformedLength (s32 e c0 c1 c2 c3))) /\
  (forall b e c0 c1 c2 c3 rest flds,
     In (strip b) count_tags ->
     s32 e c0 c1 c2 c3 < 0 ->
     r_object (mkD e (b :: c0 :: c1 :: c2 :: c3 :: rest) flds) =
     Ok (strip b,
         mkD e rest
           (flds ++ [type_field (strip b); ("n", Sint (s32 e c0 c1 c2 c3));
                     ("items", Array [])]))) /\
  (forall rec n d d',
     0 <= n ->
     (read_list rec n d = Ok (tt, d') <->
      exists items,
        reads_items rec (Endian d) (buf d) items (buf d') /\
        List.length items = Z.to_nat n /\
        d' = mkD (Endian d) (buf d')
               (children d ++ [("items", Array items)]))) /\
  (forall rec n d,
     n <= 0 ->
     read_list rec n d =
     Ok (tt, mkD (Endian d) (buf d) (children d ++ [("items", Array [])]))).
Proof.
  split; [|split; [|split]].
  - intros b e c0 c1 c2 c3 rest flds Hb Hn. rewrite r_object_cons.
    apply bind_Err.
    unfold length_tags in Hb. cbn [In] in Hb.
    repeat (destruct Hb as [Hb|Hb]; [rewrite <- Hb|]); try contradiction.
    all: unfold r_object_switch; cbn -[bind FieldS32 read_list FieldRawLen FieldStr s32].
    all: rewrite (bind_step _ _ _ _ _ (FieldS32_cons _ _ _ _ _ _ _ _)).
    all: auto using FieldRawLen_negative, FieldStr_negative.
  - intros b e c0 c1 c2 c3 rest flds Hb Hn.
    apply negative_count_decodes; [exact Hb | lia].
  - intros rec n d d' _. apply read_list_items.
  - exact read_list_no_round.
Qed.

Lemma counts_and_lengths_witness :
  r_object (mkD LittleEndian [x73; xff; xff; xff; xff; x4e] []) =
    Err (MalformedLength (-1)) /\
  r_object (mkD LittleEndian [x3c; xfe; xff; xff; xff; x4e] []) =
    Ok (TYPE_SET,
        mkD LittleEndian [x4e]
          [type_field TYPE_SET; ("n", Sint (-2)); ("items", Array [])]) /\
  (read_list r_object 2 (mkD LittleEndian [x4e; x54; x46] []) =
     Ok (tt, mkD LittleEndian [x46]
               [("items", Array [("item", bare TYPE_NONE);
                                 ("item", bare TYPE_TRUE)])]) <->
   exists items,
     reads_items r_object LittleEndian [x4e; x54; x46] items [x46] /\
     List.length items = 2%nat /\
     mkD LittleEndian [x46]
       [("items", Array [("item", bare TYPE_NONE); ("item", bare TYPE_TRUE)])] =
     mkD LittleEndian [x46] ([] ++ [("items", Array items)])) /\
  read_list r_object 0 (mkD LittleEndian [x4e] []) =
    Ok (tt, mkD LittleEndian [x4e] [("items", Array [])]).
Proof.
  destruct counts_and_lengths as (H1 & H2 & H3 & H4).
  split; [|split; [|split]].
  - apply (H1 x73 LittleEndian xff xff xff xff [x4e] []).
    + cbn. auto.
    + reflexivity.
  - apply (H2 x3c LittleEndian xfe xff xff xff [x4e] []).
    + cbn. auto.
    + reflexivity.
  - apply (H3 r_object 2 (mkD LittleEndian [x4e; x54; x46] [])). discriminate.
  - apply (H4 r_object 0 (mkD LittleEndian [x4e] [])). discriminate.
Defined.

(** C7, the claim as stated, fails for the counts: a tuple with the count
    -1 decodes, to a tuple without items; the byte after the count is not
    read. *)
Lemma negative_count_counterexample :
  r_object (mkD LittleEndian [x28; xff; xff; xff; xff; x4e] []) =
    Ok (TYPE_TUPLE,
        mkD LittleEndian [x4e]
          [type_field TYPE_TUPLE; ("n", Sint (-1)); ("items", Array [])]) /\
  ~ negative_count_is_error.
Proof.
  split; [reflexivity|].
  intros H.
  destruct (H x28 LittleEndian xff xff xff xff [x4e] []) as [err E].
  - cbn. auto.
  - reflexivity.
  - discriminate E.
Qed.

(** ** The dict loop *)

Lemma FieldStruct_map {A B} name (fn : Dec A) (f : A -> B) d :
  FieldStruct name (a <- fn ;; ret (f a)) d =
  match FieldStruct name fn d with
  | Ok (a, d') => Ok (f a, d')
  | Err e => Err e
  end.
Proof.
  unfold FieldStruct, bind, ret. now destruct (fn _) as [[a d1]|e].
Qed.

Lemma dict_loop_key_null rec n d d1 :
  FieldStruct "key" rec d = Ok (TYPE_NULL, d1) ->
  dict_loop rec (S n) d = Ok (tt, d1).
Proof.
  intros H. cbn [dict_loop]. unfold bind at 1. now rewrite FieldStruct_map, H.
Qed.

Lemma dict_loop_value_null rec n d k d1 d2 :
  FieldStruct "key" rec d = Ok (k, d1) -> k <> TYPE_NULL ->
  FieldStruct "value" rec d1 = Ok (TYPE_NULL, d2) ->
  dict_loop rec (S n) d = Ok (tt, d2).
Proof.
  intros H1 Hk H2. cbn [dict_loop]. unfold bind at 1.
  rewrite FieldStruct_map, H1.
  destruct (Z.eqb_spec k TYPE_NULL); [contradiction|].
  unfold bind at 1. now rewrite FieldStruct_map, H2.
Qed.

Lemma dict_loop_pair rec n d k d1 v d2 :
  FieldStruct "key" rec d = Ok (k, d1) -> k <> TYPE_NULL ->
  FieldStruct "value" rec d1 = Ok (v, d2) -> v <> TYPE_NULL ->
  dict_loop rec (S n) d = dict_loop rec n d2.
Proof.
  intros H1 Hk H2 Hv. cbn [dict_loop]. unfold bind at 1.
  rewrite FieldStruct_map, H1.
  destruct (Z.eqb_spec k TYPE_NULL); [contradiction|].
  unfold bind at 1. rewrite FieldStruct_map, H2.
  now destruct (Z.eqb_spec v TYPE_NULL); [contradiction|].
Qed.

Lemma dict_loop_two_pairs rec n d k1 d1 v1 d2 k2 d3 v2 d4 d5 :
  FieldStruct "key" rec d = Ok (k1, d1) -> k1 <> TYPE_NULL ->
  FieldStruct "value" rec d1 = Ok (v1, d2) -> v1 <> TYPE_NULL ->
  FieldStruct "key" rec d2 = Ok (k2, d3) -> k2 <> TYPE_NULL ->
  FieldStruct "value" rec d3 = Ok (v2, d4) -> v2 <> TYPE_NULL ->
  FieldStruct "key" rec d4 = Ok (TYPE_NULL, d5) ->
  dict_loop rec (S (S (S n))) d = Ok (tt, d5) /\
  exists K1 V1 K2 V2 K3,
    children d5 =
    children d ++ [("key", Struct K1); ("value", Struct V1);
                   ("key", Struct K2); ("value", Struct V2);
                   ("key", Struct K3)].
Proof.
  intros H1 N1 H2 N2 H3 N3 H4 N4 H5. split.
  - rewrite (dict_loop_pair _ _ _ _ _ _ _ H1 N1 H2 N2).
    rewrite (dict_loop_pair _ _ _ _ _ _ _ H3 N3 H4 N4).
    now apply dict_loop_key_null.
  - apply FieldStruct_inv in H1 as (K1 & C1), H2 as (V1 & C2),
      H3 as (K2 & C3), H4 as (V2 & C4), H5 as (K3 & C5).
    exists K1, V1, K2, V2, K3.
    rewrite C5, C4, C3, C2, C1, <- !app_assoc. reflexivity.
Qed.

Ltac r_object_step := rewrite r_object_cons; cbv -[r_object app].

Lemma dict_zero_pairs e rest flds :
  r_object (mkD e (x7b :: x30 :: rest) flds) =
  Ok (TYPE_DICT,
      mkD e rest
        (flds ++ [type_field TYPE_DICT;
                  ("items", Array [("key", bare TYPE_NULL)])])).
Proof.
  do 2 r_object_step. rewrite <- !app_assoc. reflexivity.
Qed.

Lemma dict_two_pairs e rest flds :
  r_object (mkD e (x7b :: x4e :: x54 :: x46 :: x4e :: x30 :: rest) flds) =
  Ok (TYPE_DICT,
      mkD e rest
        (flds ++ [type_field TYPE_DICT;
                  ("items", Array [("key", bare TYPE_NONE);
                                   ("value", bare TYPE_TRUE);
                                   ("key", bare TYPE_FALSE);
                                   ("value", bare TYPE_NONE);
                                   ("key", bare TYPE_NULL)])])).
Proof.
  do 6 r_object_step. rewrite <- !app_assoc. reflexivity.
Qed.

Lemma dict_null_value e rest flds :
  r_object (mkD e (x7b :: x4e :: x30 :: rest) flds) =
  Ok (TYPE_DICT,
      mkD e rest
        (flds ++ [type_field TYPE_DICT;
                  ("items", Array [("key", bare TYPE_NONE);
                                   ("value", bare TYPE_NULL)])])).
Proof.
  do 3 r_object_step. rewrite <- !app_assoc. reflexivity.
Qed.

(** C1 (as amended): the dict loop tests the tag of the key and the tag
    of the value.  Bytes key1 value1 key2 value2 and a Null key decode to
    exactly two pairs (and the Null key, which is kept as a last item); a
    Null first key gives no pair and no value is read; a Null-tagged
    object in the value position is stored as the value of its pair and
    ends the loop as well, whatever follows.  Shown on sample bytes
    through [r_object] and, for every object decoder and every state, on
    the loop itself. *)
Theorem dict_sentinel_in_key_and_value :
  (forall e rest flds,
     r_object (mkD e (x7b :: x4e :: x54 :: x46 :: x4e :: x30 :: rest) flds) =
     Ok (TYPE_DICT,
         mkD e rest
           (flds ++ [type_field TYPE_DICT;
                     ("items", Array [("key", bare TYPE_NONE);
                                      ("value", bare TYPE_TRUE);
                                      ("key", bare TYPE_FALSE);
                                      ("value", bare TYPE_NONE);
                                      ("key", bare TYPE_NULL)])]))) /\
  (forall e rest flds,
     r_object (mkD e (x7b :: x30 :: rest) flds) =
     Ok (TYPE_DICT,
         mkD e rest
           (flds ++ [type_field TYPE_DICT;
                     ("items", Array [("key", bare TYPE_NULL)])]))) /\
  (forall e rest flds,
     r_object (mkD e (x7b :: x4e :: x30 :: rest) flds) =
     Ok (TYPE_DICT,
         mkD e rest
           (flds ++ [type_field TYPE_DICT;
                     ("items", Array [("key", bare TYPE_NONE);
                                      ("value", bare TYPE_NULL)])]))) /\
  (forall rec n d k1 d1 v1 d2 k2 d3 v2 d4 d5,
     FieldStruct "key" rec d = Ok (k1, d1) -> k1 <> TYPE_NULL ->
     FieldStruct "value" rec d1 = Ok (v1, d2) -> v1 <> TYPE_NULL ->
     FieldStruct "key" rec d2 = Ok (k2, d3) -> k2 <> TYPE_NULL ->
     FieldStruct "value" rec d3 = Ok (v2, d4) -> v2 <> TYPE_NULL ->
     FieldStruct "key" rec d4 = Ok (TYPE_NULL, d5) ->
     dict_loop rec (S (S (S n))) d = Ok (tt, d5) /\
     exists K1 V1 K2 V2 K3,
       children d5 =
       children d ++ [("key", Struct K1); ("value", Struct V1);
                      ("key", Struct K2); ("value", Struct V2);
                      ("key", Struct K3)]) /\
  (forall rec n d d1,
     FieldStruct "key" rec d = Ok (TYPE_NULL, d1) ->
     dict_loop rec (S n) d = Ok (tt, d1)) /\
  (forall rec n d k d1 d2,
     FieldStruct "key" rec d = Ok (k, d1) -> k <> TYPE_NULL ->
     FieldStruct "value" rec d1 = Ok (TYPE_NULL, d2) ->
     dict_loop rec (S n) d = Ok (tt, d2)) /\
  (forall rec n d k d1 v d2,
     FieldStruct "key" rec d = Ok (k, d1) -> k <> TYPE_NULL ->
     FieldStruct "value" rec d1 = Ok (v, d2) -> v <> TYPE_NULL ->
     dict_loop rec (S n) d = dict_loop rec n d2).
Proof.
  split; [|split; [|split; [|split; [|split; [|split]]]]].
  - exact dict_two_pairs.
  - exact dict_zero_pairs.
  - exact dict_null_value.
  - exact dict_loop_two_pairs.
  - exact dict_loop_key_null.
  - exact dict_loop_value_null.
  - exact dict_loop_pair.
Qed.

Lemma dict_sentinel_in_key_and_value_witness :
  dict_loop r_object 1 (mkD LittleEndian [x30; x4e] []) =
    Ok (tt, mkD LittleEndian [x4e] [("key", bare TYPE_NULL)]) /\
  dict_loop r_object 1 (mkD LittleEndian [x4e; x30; x4e] []) =
    Ok (tt, mkD LittleEndian [x4e]
              [("key", bare TYPE_NONE); ("value", bare TYPE_NULL)]) /\
  dict_loop r_object 2 (mkD LittleEndian [x4e; x54; x30] []) =
  dict_loop r_object 1
    (mkD LittleEndian [x30] [("key", bare TYPE_NONE); ("value", bare TYPE_TRUE)]).
Proof.
  destruct dict_sentinel_in_key_and_value as (_ & _ & _ & _ & H1 & H2 & H3).
  split; [|split].
  - apply H1. reflexivity.
  - apply (H2 r_object 0%nat _ TYPE_NONE (mkD LittleEndian [x30; x4e] [("key", bare TYPE_NONE)])).
    + reflexivity.
    + discriminate.
    + reflexivity.
  - apply (H3 r_object 1%nat _ TYPE_NONE
             (mkD LittleEndian [x54; x30] [("key", bare TYPE_NONE)]) TYPE_TRUE).
    + reflexivity.
    + discriminate.
    + reflexivity.
    + discriminate.
Defined.

(** C1, the claim as stated, fails in its third part: in
    [{ None Null None None Null] the Null in the value position ends the
    loop; the dict has the single pair (None, Null) and the three bytes
    after it are not read as a second pair. *)
Lemma null_value_counterexample :
  r_object (mkD LittleEndian [x7b; x4e; x30; x4e; x4e; x30] []) =
    Ok (TYPE_DICT,
        mkD LittleEndian [x4e; x4e; x30]
          [type_field TYPE_DICT;
           ("items", Array [("key", bare TYPE_NONE);
                            ("value", bare TYPE_NULL)])]) /\
  ~ null_value_continues.
Proof.
  split; [reflexivity|].
  intros H.
  apply (H (mkD LittleEndian [x7b; x4e; x30; x4e; x4e; x30] [])
           (mkD LittleEndian [x4e; x4e; x30]
              [type_field TYPE_DICT;
               ("items", Array [("key", bare TYPE_NONE);
                                ("value", bare TYPE_NULL)])])
           [("key", bare TYPE_NONE); ("value", bare TYPE_NULL)]
           [("key", bare TYPE_NONE)] (bare TYPE_NULL));
    reflexivity.
Qed.

(** ** Framing *)

Import Frame.

Lemma framed_ret {A} n (a : A) : framed n (ret a).
Proof.
  intros d a' d' _ H. inversion H; subst. exists [], [].
  rewrite app_nil_r. repeat split. intros rest flds.
  unfold ret. now rewrite app_nil_r.
Qed.

Lemma framed_fail {A} n e : framed n (@fail A e).
Proof. intros d a d' _ H. discriminate. Qed.

Lemma framed_ext {A} n (m m' : Dec A) :
  (forall d, m d = m' d) -> framed n m -> framed n m'.
Proof.
  intros E H d a d' L R. rewrite <- E in R.
  destruct (H d a d' L R) as (pre & fs & B & En & C & F).
  exists pre, fs. repeat split; auto. intros rest flds. now rewrite <- E.
Qed.

Lemma framed_le {A} n n' (m : Dec A) : (n' <= n)%nat -> framed n m -> framed n' m.
Proof. intros L H d a d' Hd. apply H. lia. Qed.

(** [m] first, then [k]: [k] runs on an input that is no longer, and
    strictly shorter when [m] reads something. *)
Lemma framed_bind_gen {A B} n n' (m : Dec A) (k : A -> Dec B) :
  framed n' m ->
  (forall d a d', (List.length (buf d) < n')%nat -> m d = Ok (a, d') ->
                  (List.length (buf d') < n)%nat) ->
  (forall a, framed n (k a)) ->
  framed n' (bind m k).
Proof.
  intros Hm Hlen Hk d b d' L R.
  apply bind_Ok in R as (a & d1 & R1 & R2).
  destruct (Hm d a d1 L R1) as (pre1 & fs1 & B1 & E1 & C1 & F1).
  destruct (Hk a d1 b d' (Hlen _ _ _ L R1) R2) as (pre2 & fs2 & B2 & E2 & C2 & F2).
  exists (pre1 ++ pre2), (fs1 ++ fs2). repeat split.
  - now rewrite B1, B2, app_assoc.
  - congruence.
  - now rewrite C2, C1, app_assoc.
  - intros rest flds. rewrite <- app_assoc.
    rewrite (bind_step _ _ _ _ _ (F1 (pre2 ++ rest) flds)).
    rewrite <- E1, F2, app_assoc. reflexivity.
Qed.

Lemma framed_shorter {A} n (m : Dec A) d a d' :
  framed n m -> (List.length (buf d) < n)%nat -> m d = Ok (a, d') ->
  (List.length (buf d') <= List.length (buf d))%nat.
Proof.
  intros H L R. destruct (H d a d' L R) as (pre & fs & B & _).
  rewrite B, length_app. lia.
Qed.

Lemma framed_bind {A B} n (m : Dec A) (k : A -> Dec B) :
  framed n m -> (forall a, framed n (k a)) -> framed n (bind m k).
Proof.
  intros Hm Hk. apply (framed_bind_gen n n); auto.
  intros d a d' L R. pose proof (framed_shorter _ _ _ _ _ Hm L R). lia.
Qed.

Lemma framed_bind_consuming {A B} n (m : Dec A) (k : A -> Dec B) :
  framed (S n) m -> consuming m -> (forall a, framed n (k a)) ->
  framed (S n) (bind m k).
Proof.
  intros Hm Hc Hk. apply (framed_bind_gen n (S n)); auto.
  intros d a d' L R. apply Hc in R. lia.
Qed.

Lemma read_bytes_app e bs rest flds :
  read_bytes (List.length bs) (mkD e (bs ++ rest) flds) = Ok (bs, mkD e rest flds).
Proof.
  unfold read_bytes. cbn [buf Endian children].
  destruct (Nat.leb_spec (List.length bs) (List.length (bs ++ rest))) as [_|X];
    [|rewrite length_app in X; lia].
  rewrite firstn_app, skipn_app, Nat.sub_diag, firstn_all, skipn_all.
  cbn. now rewrite !app_nil_r.
Qed.

Lemma framed_read_bytes n k : framed n (read_bytes k).
Proof.
  intros d bs d' _ R. apply read_bytes_Ok in R as (B & L & E & C).
  exists bs, []. rewrite app_nil_r. repeat split; auto.
  intros rest flds. rewrite <- L, app_nil_r. apply read_bytes_app.
Qed.

Lemma framed_add_field n name v : framed n (add_field name v).
Proof.
  intros d a d' _ R. inversion R; subst. exists [], [(name, v)].
  repeat split.
Qed.

#[local] Hint Resolve framed_ret framed_fail framed_bind framed_read_bytes
  framed_add_field : dec.

Lemma framed_U n k : framed n (U k).
Proof.
  intros d u d' L R. unfold U in R.
  assert (H : framed n (bs <- read_bytes k ;; ret (uint_of_bytes (Endian d) bs)))
    by auto with dec.
  destruct (H d u d' L R) as (pre & fs & B & E & C & F).
  exists pre, fs. repeat split; auto.
Qed.

Lemma framed_read_declared n k : framed n (read_declared k).
Proof.
  intros d bs d' L R. unfold read_declared in R.
  destruct (Z.ltb_spec k 0) as [|K]; [discriminate|].
  destruct (_ <? _)%nat; [discriminate|].
  apply read_bytes_Ok in R as (B & Lb & E & C).
  exists bs, []. rewrite app_nil_r. repeat split; auto.
  intros rest flds. unfold read_declared. cbn [buf].
  destruct (Z.ltb_spec k 0); [lia|].
  destruct (Nat.ltb_spec (List.length (bs ++ rest)) (Z.to_nat k)) as [X|_];
    [rewrite length_app in X; lia|].
  rewrite <- Lb, app_nil_r. apply read_bytes_app.
Qed.

#[local] Hint Resolve framed_U framed_read_declared : dec.

Lemma framed_text n k : framed n (text k).
Proof.
  unfold text. apply framed_bind; auto with dec.
  intros bs. destruct (utf8_valid bs); auto with dec.
Qed.

Lemma framed_FieldStruct {A} n name (fn : Dec A) :
  framed n fn -> framed n (FieldStruct name fn).
Proof.
  intros Hf d a d' L R. unfold FieldStruct in R.
  destruct (fn _) as [[a1 d1]|] eqn:E; [|discriminate].
  inversion R; subst; clear R.
  destruct (Hf (mkD (Endian d) (buf d) []) _ _ L E) as (pre & fs & B & En & C & F).
  cbn [buf Endian children] in *.
  exists pre, [(name, Struct fs)]. repeat split; auto.
  - now rewrite C.
  - intros rest flds. unfold FieldStruct. cbn [buf Endian children].
    now rewrite F.
Qed.

Lemma framed_FieldArray {A} n name (fn : Dec A) :
  framed n fn -> framed n (FieldArray name fn).
Proof.
  intros Hf d a d' L R. unfold FieldArray in R.
  destruct (fn _) as [[a1 d1]|] eqn:E; [|discriminate].
  inversion R; subst; clear R.
  destruct (Hf (mkD (Endian d) (buf d) []) _ _ L E) as (pre & fs & B & En & C & F).
  cbn [buf Endian children] in *.
  exists pre, [(name, Array fs)]. repeat split; auto.
  - now rewrite C.
  - intros rest flds. unfold FieldArray. cbn [buf Endian children].
    now rewrite F.
Qed.

Lemma framed_times n k m : framed n m -> framed n (times k m).
Proof. intros Hm. induction k; cbn [times]; auto with dec. Qed.

#[local] Hint Resolve framed_text framed_FieldStruct framed_FieldArray
  framed_times : dec.

Lemma framed_void {A} n (m : Dec A) : framed n m -> framed n (void m).
Proof. unfold void. auto with dec. Qed.

Lemma framed_read_list n rec k : framed n rec -> framed n (read_list rec k).
Proof.
  intros H. unfold read_list, FieldStructNArray.
  auto using framed_void with dec.
Qed.

#[local] Hint Resolve framed_void framed_read_list : dec.

Lemma framed_fields n :
  (forall name, framed n (FieldU8 name)) /\
  (forall name, framed n (FieldU32 name)) /\
  (forall name, framed n (FieldS32 name)) /\
  (forall name, framed n (FieldS64 name)) /\
  (forall name, framed n (FieldF64 name)) /\
  (forall name k, framed n (FieldRawLen name k)) /\
  (forall name k, framed n (FieldStr name k)) /\
  (forall name, framed n (FieldUTF8ShortString name)).
Proof.
  unfold FieldU8, FieldU32, FieldS32, FieldS64, FieldF64, FieldRawLen,
    FieldStr, FieldUTF8ShortString, U8, S_.
  repeat split; intros; auto 10 with dec.
Qed.

Lemma framed_FieldU8 n name : framed n (FieldU8 name).
Proof. apply framed_fields. Qed.
Lemma framed_FieldU32 n name : framed n (FieldU32 name).
Proof. apply framed_fields. Qed.
Lemma framed_FieldS32 n name : framed n (FieldS32 name).
Proof. apply framed_fields. Qed.
Lemma framed_FieldS64 n name : framed n (FieldS64 name).
Proof. apply framed_fields. Qed.
Lemma framed_FieldF64 n name : framed n (FieldF64 name).
Proof. apply framed_fields. Qed.
Lemma framed_FieldRawLen n name k : framed n (FieldRawLen name k).
Proof. apply framed_fields. Qed.
Lemma framed_FieldStr n name k : framed n (FieldStr name k).
Proof. apply framed_fields. Qed.
Lemma framed_FieldUTF8ShortString n name : framed n (FieldUTF8ShortString name).
Proof. apply framed_fields. Qed.

#[local] Hint Resolve framed_FieldU8 framed_FieldU32 framed_FieldS32
  framed_FieldS64 framed_FieldF64 framed_FieldRawLen framed_FieldStr
  framed_FieldUTF8ShortString : dec.

Lemma consuming_r_object : consuming r_object.
Proof. intros d a d' H. exact (consuming_r_object_fuel _ _ _ _ H). Qed.

Lemma consuming_tagged_struct name rec (f : Z -> bool) :
  consuming rec -> consuming (FieldStruct name (ty <- rec ;; ret (f ty))).
Proof. intros H. apply consuming_FieldStruct, consuming_bind; auto with dec. Qed.

Lemma framed_prefix_nonempty {A} n (m : Dec A) d a d' :
  framed n m -> consuming m -> (List.length (buf d) < n)%nat ->
  m d = Ok (a, d') ->
  exists pre fs,
    (1 <= List.length pre)%nat /\
    buf d = pre ++ buf d' /\
    Endian d' = Endian d /\
    children d' = children d ++ fs /\
    forall rest flds,
      m (mkD (Endian d) (pre ++ rest) flds) =
      Ok (a, mkD (Endian d) rest (flds ++ fs)).
Proof.
  intros Hf Hc L R. destruct (Hf d a d' L R) as (pre & fs & B & E & C & F).
  exists pre, fs. repeat split; auto.
  apply Hc in R. rewrite B, length_app in R. lia.
Qed.

(** The dict loop is framed, and on an input that starts with what it
    read it needs no more rounds than bytes it read. *)
Lemma dict_loop_framed rec n :
  framed n rec -> consuming rec ->
  forall k d d',
    (List.length (buf d) < n)%nat ->
    dict_loop rec k d = Ok (tt, d') ->
    exists pre fs,
      buf d = pre ++ buf d' /\
      Endian d' = Endian d /\
      children d' = children d ++ fs /\
      forall k' rest flds,
        (List.length pre <= k')%nat ->
        dict_loop rec k' (mkD (Endian d) (pre ++ rest) flds) =
        Ok (tt, mkD (Endian d) rest (flds ++ fs)).
Proof.
  intros Hf Hc.
  assert (FK : forall name, framed n (FieldStruct name (ty <- rec ;; ret (ty =? TYPE_NULL))))
    by auto with dec.
  assert (CK : forall name, consuming (FieldStruct name (ty <- rec ;; ret (ty =? TYPE_NULL))))
    by (intros; now apply consuming_tagged_struct).
  induction k as [|k IH]; intros d d' L R; [discriminate|].
  cbn [dict_loop] in R. apply bind_Ok in R as (e1 & d1 & R1 & R2).
  destruct (framed_prefix_nonempty _ _ _ _ _ (FK "key") (CK "key") L R1)
    as (pre1 & fs1 & N1 & B1 & E1 & C1 & F1).
  assert (L1 : (List.length (buf d1) < n)%nat).
  { rewrite B1, length_app in L. lia. }
  destruct e1.
  - inversion R2; subst d'. exists pre1, fs1. repeat split; auto.
    intros [|k'] rest flds K; [lia|]. cbn [dict_loop].
    now rewrite (bind_step _ _ _ _ _ (F1 rest flds)).
  - apply bind_Ok in R2 as (e2 & d2 & R3 & R4).
    destruct (framed_prefix_nonempty _ _ _ _ _ (FK "value") (CK "value") L1 R3)
      as (pre2 & fs2 & N2 & B2 & E2 & C2 & F2).
    rewrite E1 in F2.
    destruct e2.
    + inversion R4; subst d'. exists (pre1 ++ pre2), (fs1 ++ fs2).
      repeat split.
      * now rewrite B1, B2, app_assoc.
      * congruence.
      * now rewrite C2, C1, app_assoc.
      * intros [|k'] rest flds K; [rewrite length_app in K; lia|].
        cbn [dict_loop]. rewrite <- app_assoc.
        rewrite (bind_step _ _ _ _ _ (F1 (pre2 ++ rest) flds)).
        rewrite (bind_step _ _ _ _ _ (F2 rest (flds ++ fs1))).
        now rewrite app_assoc.
    + assert (L2 : (List.length (buf d2) < n)%nat).
      { rewrite B2, length_app in L1. lia. }
      destruct (IH d2 d' L2 R4) as (pre3 & fs3 & B3 & E3 & C3 & F3).
      rewrite E2, E1 in F3.
      exists (pre1 ++ pre2 ++ pre3), (fs1 ++ fs2 ++ fs3). repeat split.
      * now rewrite B1, B2, B3, !app_assoc.
      * congruence.
      * now rewrite C3, C2, C1, !app_assoc.
      * intros [|k'] rest flds K; [rewrite !length_app in K; lia|].
        cbn [dict_loop]. rewrite <- !app_assoc.
        rewrite (bind_step _ _ _ _ _ (F1 (pre2 ++ pre3 ++ rest) flds)).
        rewrite (bind_step _ _ _ _ _ (F2 (pre3 ++ rest) (flds ++ fs1))).
        rewrite F3 by (rewrite !length_app in K; lia).
        now rewrite !app_assoc.
Qed.

Lemma framed_dict_items rec n :
  framed n rec -> consuming rec ->
  framed n (fun d => dict_loop rec (S (List.length (buf d))) d).
Proof.
  intros Hf Hc d [] d' L R.
  destruct (dict_loop_framed rec n Hf Hc _ d d' L R) as (pre & fs & B & E & C & F).
  exists pre, fs. repeat split; auto.
  intros rest flds. cbn [buf]. apply F. rewrite length_app. lia.
Qed.

#[local] Hint Resolve framed_dict_items : dec.

Lemma framed_switch n rec ty :
  framed n rec -> consuming rec -> framed n (r_object_switch rec ty).
Proof.
  intros Hf Hc. unfold r_object_switch, panic.
  split_ifs; auto 20 with dec.
Qed.

Lemma framed_read_type n : framed n read_type.
Proof. unfold read_type, FieldUintFn, U8. auto 10 with dec. Qed.

Lemma framed_r_object n : framed n r_object.
Proof.
  induction n as [|n IH].
  - intros d a d' L. lia.
  - apply (framed_ext _ (r_object_body r_object)).
    { intros d. symmetry. apply r_object_eq. }
    unfold r_object_body.
    apply framed_bind_consuming;
      [apply framed_read_type | apply consuming_read_type |].
    intros ty. apply framed_bind; [|auto with dec].
    apply framed_switch; [exact IH | exact consuming_r_object].
Qed.

(** ** Termination *)

(** X1: [r_object] ends on every input.  The recursion is never deeper
    than the number of unread bytes plus one, and the dict loop never
    makes more rounds than bytes are left: with that much fuel the model
    does not run out. *)
Theorem r_object_recursion_is_bounded :
  (forall fuel d,
     (List.length (buf d) < fuel)%nat ->
     r_object_fuel fuel d <> Err OutOfFuel) /\
  (forall k d,
     (List.length (buf d) < k)%nat ->
     dict_loop r_object k d <> Err OutOfFuel).
Proof.
  split.
  - intros fuel d H. exact (r_object_fuel_enough fuel d H).
  - intros k d H.
    apply (dict_loop_fueled r_object (S (List.length (buf d)))); auto.
    + exact consuming_r_object.
    + intros d0 _. exact (r_object_total d0).
Qed.

Lemma r_object_recursion_is_bounded_witness :
  r_object_fuel 3 (mkD LittleEndian [x29; x01] []) <> Err OutOfFuel /\
  dict_loop r_object 2 (mkD LittleEndian [x4e] []) <> Err OutOfFuel.
Proof.
  destruct r_object_recursion_is_bounded as [H1 H2]. split.
  - apply H1. cbn. lia.
  - apply H2. cbn. lia.
Defined.

(** ** What a call of [r_object] reads and adds *)

Lemma r_object_frame d ty d' :
  r_object d = Ok (ty, d') ->
  Endian d' = Endian d /\
  exists b pre fs,
    buf d = b :: pre ++ buf d' /\
    ty = strip b /\
    children d' = children d ++ type_field ty :: fs.
Proof.
  rewrite r_object_eq. unfold r_object_body. intros H.
  apply bind_Ok in H as (ty1 & d1 & H1 & H2).
  apply bind_Ok in H2 as ([] & d2 & H2 & H3).
  inversion H3; subst; clear H3.
  apply read_type_Ok in H1 as (b & rest & B & T & ->).
  pose proof (framed_switch (S (List.length rest)) r_object ty
                (framed_r_object _) consuming_r_object) as Hs.
  apply Hs in H2 as (pre & fs & B2 & E2 & C2 & _); [|cbn; lia].
  cbn [buf Endian children] in *. split; [exact E2|].
  exists b, pre, fs. rewrite B, B2, C2, <- app_assoc. now repeat split.
Qed.

(** X2: a call of [r_object] that returns has read the tag byte and
    possibly more from the front of the input and nothing else, has left
    the byte order alone, and has only added fields after those the
    struct had; the first field it adds is the "type" of the tag it
    returns. *)
Theorem r_object_advances_and_appends d ty d' :
  r_object d = Ok (ty, d') ->
  Endian d' = Endian d /\
  exists b pre fs,
    buf d = b :: pre ++ buf d' /\
    ty = strip b /\
    children d' = children d ++ type_field ty :: fs.
Proof. exact (r_object_frame d ty d'). Qed.

Lemma r_object_advances_and_appends_witness :
  Endian (mkD BigEndian [x4e] [("n", Sint 1); type_field TYPE_INT; ("value", Sint 7)]) =
    Endian (mkD BigEndian [x69; x00; x00; x00; x07; x4e] [("n", Sint 1)]) /\
  exists b pre fs,
    buf (mkD BigEndian [x69; x00; x00; x00; x07; x4e] [("n", Sint 1)]) =
      b :: pre ++
      buf (mkD BigEndian [x4e] [("n", Sint 1); type_field TYPE_INT; ("value", Sint 7)]) /\
    TYPE_INT = strip b /\
    children (mkD BigEndian [x4e] [("n", Sint 1); type_field TYPE_INT; ("value", Sint 7)]) =
      children (mkD BigEndian [x69; x00; x00; x00; x07; x4e] [("n", Sint 1)]) ++
      type_field TYPE_INT :: fs.
Proof.
  apply (r_object_advances_and_appends
           (mkD BigEndian [x69; x00; x00; x00; x07; x4e] [("n", Sint 1)])
           TYPE_INT
           (mkD BigEndian [x4e] [("n", Sint 1); type_field TYPE_INT; ("value", Sint 7)])).
  reflexivity.
Defined.

(** X3: the object [r_object] decodes depends on the bytes it reads
    only.  When it returns after reading [pre], then on every input that
    starts with [pre] it returns the same tag, adds the same fields to the
    same struct and leaves exactly what follows [pre]; it never looks
    past the end of its object. *)
Theorem r_object_reads_only_its_object e s flds ty d' :
  r_object (mkD e s flds) = Ok (ty, d') ->
  exists pre,
    s = pre ++ buf d' /\
    forall rest,
      r_object (mkD e (pre ++ rest) flds) =
      Ok (ty, mkD e rest (children d')).
Proof.
  intros H.
  destruct (framed_r_object (S (List.length s)) (mkD e s flds) ty d'
              (Nat.lt_succ_diag_r _) H)
    as (pre & fs & B & _ & C & F).
  exists pre. split; [exact B|].
  intros rest. rewrite C. apply F.
Qed.

Lemma r_object_reads_only_its_object_witness :
  exists pre,
    [x29; x01; x4e; x54] =
      pre ++ buf (mkD LittleEndian [x54]
                    [type_field TYPE_SMALL_TUPLE; ("n", Uint 1 None);
                     ("items", Array [("item", bare TYPE_NONE)])]) /\
    forall rest,
      r_object (mkD LittleEndian (pre ++ rest) []) =
      Ok (TYPE_SMALL_TUPLE,
          mkD LittleEndian rest
            (children (mkD LittleEndian [x54]
                         [type_field TYPE_SMALL_TUPLE; ("n", Uint 1 None);
                          ("items", Array [("item", bare TYPE_NONE)])]))).
Proof.
  apply (r_object_reads_only_its_object LittleEndian [x29; x01; x4e; x54] []).
  reflexivity.
Defined.

(** ** The returned tag *)

Lemma strip_mod b : strip b = byte_val b mod 128.
Proof. destruct b; reflexivity. Qed.

(** X4: the tag [r_object] returns is the tag byte modulo 128: a byte
    below 0x80 comes back as it is, a byte from 0x80 on comes back less
    0x80; the low seven bits are never changed. *)
Theorem r_object_tag_is_byte_mod_128 d ty d' :
  r_object d = Ok (ty, d') ->
  exists b rest, buf d = b :: rest /\ ty = byte_val b mod 128.
Proof.
  intros H. apply r_object_tag in H as (b & rest & B & ->).
  exists b, rest. split; [exact B | apply strip_mod].
Qed.

Lemma r_object_tag_is_byte_mod_128_witness :
  exists b rest,
    buf (mkD LittleEndian [xce; x01] []) = b :: rest /\
    TYPE_NONE = byte_val b mod 128.
Proof.
  apply (r_object_tag_is_byte_mod_128 (mkD LittleEndian [xce; x01] []) TYPE_NONE
           (mkD LittleEndian [x01] [type_field TYPE_NONE])).
  reflexivity.
Defined.

(** ** Shape of decoded containers *)

Lemma FieldStruct_r_object name d ty d1 :
  FieldStruct name r_object d = Ok (ty, d1) ->
  exists V, children d1 = children d ++ [(name, V)] /\ tag_of V = Some ty.
Proof.
  unfold FieldStruct.
  destruct (r_object _) as [[t dd]|] eqn:E; [|discriminate].
  intros H. inversion H; subst; clear H.
  apply r_object_frame in E as (_ & b & pre & fs & _ & _ & C).
  cbn [children app] in *. rewrite C.
  exists (Struct (type_field ty :: fs)). now split.
Qed.

Lemma tagged_struct_Ok name (f : Z -> bool) d x d1 :
  FieldStruct name (ty <- r_object ;; ret (f ty)) d = Ok (x, d1) ->
  exists ty, x = f ty /\ FieldStruct name r_object d = Ok (ty, d1).
Proof.
  rewrite FieldStruct_map.
  destruct (FieldStruct name r_object d) as [[ty dd]|]; [|discriminate].
  intros H. inversion H; subst. eauto.
Qed.

Lemma dict_loop_shape k : forall d d',
  dict_loop r_object k d = Ok (tt, d') ->
  exists items, children d' = children d ++ items /\ dict_shape items.
Proof.
  induction k as [|k IH]; intros d d' R; [discriminate|].
  cbn [dict_loop] in R. apply bind_Ok in R as (e1 & d1 & R1 & R2).
  apply tagged_struct_Ok in R1 as (k1 & -> & R1).
  apply FieldStruct_r_object in R1 as (K & C1 & T1).
  destruct (Z.eqb_spec k1 TYPE_NULL) as [->|N1].
  - inversion R2; subst d'. exists [("key", K)]. split; [exact C1|].
    now constructor.
  - apply bind_Ok in R2 as (e2 & d2 & R3 & R4).
    apply tagged_struct_Ok in R3 as (v1 & -> & R3).
    apply FieldStruct_r_object in R3 as (V & C2 & T2).
    destruct (Z.eqb_spec v1 TYPE_NULL) as [->|N2].
    + inversion R4; subst d'. exists [("key", K); ("value", V)].
      split; [now rewrite C2, C1, <- app_assoc|].
      now apply (shape_null_value K V k1).
    + apply IH in R4 as (items & C3 & S3).
      exists (("key", K) :: ("value", V) :: items).
      split; [now rewrite C3, C2, C1, <- !app_assoc|].
      now apply (shape_pair K V k1 v1).
Qed.

(** X5: a decoded dict is the field "type" and one array "items" that
    holds keys and values in turn; every key and value but the last has a
    tag other than Null, and the last item is a Null key or the Null
    value of a last pair.  A dict never comes back without its Null. *)
Theorem dict_items_end_with_null b e rest flds ty d' :
  strip b = TYPE_DICT ->
  r_object (mkD e (b :: rest) flds) = Ok (ty, d') ->
  exists items,
    children d' = flds ++ [type_field TYPE_DICT; ("items", Array items)] /\
    dict_shape items.
Proof.
  intros Hb. rewrite r_object_cons, Hb. intros H.
  apply bind_Ok in H as ([] & d1 & H1 & H2). inversion H2; subst; clear H2.
  change (r_object_switch r_object TYPE_DICT) with
    (FieldArray "items"
       (fun d => dict_loop r_object (S (List.length (buf d))) d)) in H1.
  unfold FieldArray in H1. cbn [buf Endian children] in H1.
  destruct (dict_loop _ _ _) as [[[] dd]|] eqn:E; [|discriminate].
  inversion H1; subst; clear H1.
  apply dict_loop_shape in E as (items & C & S). cbn [children app] in *.
  exists items. rewrite C, <- app_assoc. now split.
Qed.

Lemma dict_items_end_with_null_witness :
  exists items,
    children (mkD LittleEndian [x4e; x4e; x30]
                [type_field TYPE_DICT;
                 ("items", Array [("key", bare TYPE_NONE);
                                  ("value", bare TYPE_NULL)])]) =
      [] ++ [type_field TYPE_DICT; ("items", Array items)] /\
    dict_shape items.
Proof.
  apply (dict_items_end_with_null x7b LittleEndian [x4e; x30; x4e; x4e; x30] []
           TYPE_DICT); reflexivity.
Defined.

Lemma FieldU8_Ok name d x d' :
  FieldU8 name d = Ok (x, d') ->
  children d' = children d ++ [(name, Uint x None)] /\ 0 <= x < 256.
Proof.
  unfold FieldU8, U8. intros H.
  apply bind_Ok in H as (u & d0 & H0 & H1).
  apply U_Ok in H0 as (R & _ & C).
  inversion H1; subst. cbn [children]. rewrite C.
  split; [reflexivity|exact R].
Qed.

Lemma reads_items_is_item e s items s' :
  reads_items r_object e s items s' -> Forall is_item items.
Proof.
  induction 1 as [|s ty d1 items s' H R IH]; constructor; [|exact IH].
  apply r_object_frame in H as (_ & b & pre & fs & _ & _ & C).
  cbn [children app] in C. rewrite C. split; [reflexivity|].
  now exists ty.
Qed.

Lemma counted_sequence_Ok (count : Dec Z) d d' :
  (n <- count ;; read_list r_object n) d = Ok (tt, d') ->
  exists n d1 items,
    count d = Ok (n, d1) /\
    children d' = children d1 ++ [("items", Array items)] /\
    List.length items = Z.to_nat n /\ Forall is_item items.
Proof.
  intros H. apply bind_Ok in H as (n & d1 & H1 & H2).
  apply read_list_items in H2 as (items & R & L & ->).
  cbn [children]. exists n, d1, items. repeat split; auto.
  now apply reads_items_is_item in R.
Qed.

(** X6: a decoded small tuple, tuple, list, set or frozenset is the
    field "type", the count "n" and one array "items" of structs "item",
    each starting with its own "type".  The array holds exactly [n] of
    them when [n >= 0] and none when [n] is negative; the count of a
    small tuple is an unsigned byte, the other counts are signed 32-bit
    numbers. *)
Theorem sequence_has_n_items b e rest flds ty d' :
  In (strip b) sequence_tags ->
  r_object (mkD e (b :: rest) flds) = Ok (ty, d') ->
  exists n nv items,
    children d' =
      flds ++ [type_field (strip b); ("n", nv); ("items", Array items)] /\
    ((strip b = TYPE_SMALL_TUPLE /\ nv = Uint n None /\ 0 <= n < 256) \/
     (strip b <> TYPE_SMALL_TUPLE /\ nv = Sint n /\ - 2 ^ 31 <= n < 2 ^ 31)) /\
    List.length items = Z.to_nat (Z.max 0 n) /\
    Forall is_item items.
Proof.
  intros Hb. rewrite r_object_cons. intros H.
  apply bind_Ok in H as ([] & d1 & H1 & H2). inversion H2; subst; clear H2.
  unfold sequence_tags in Hb. cbn [In] in Hb.
  destruct Hb as [Hb|Hb].
  - rewrite <- Hb in *.
    change (r_object_switch r_object TYPE_SMALL_TUPLE) with
      (n <- FieldU8 "n" ;; read_list r_object n) in H1.
    apply counted_sequence_Ok in H1 as (n & d0 & items & Hn & C & L & F).
    apply FieldU8_Ok in Hn as (C0 & Rn). cbn [children] in C0.
    exists n, (Uint n None), items. rewrite C, C0, <- !app_assoc.
    split; [reflexivity|]. split; [left; repeat split; auto; lia|].
    split; [lia | exact F].
  - assert (S : r_object_switch r_object (strip b) =
                (n <- FieldS32 "n" ;; read_list r_object n) /\
                strip b <> TYPE_SMALL_TUPLE).
    { destruct Hb as [Hb|[Hb|[Hb|[Hb|[]]]]]; rewrite <- Hb;
        (split; [reflexivity|discriminate]). }
    destruct S as [S NS]. rewrite S in H1.
    apply counted_sequence_Ok in H1 as (n & d0 & items & Hn & C & L & F).
    apply FieldS32_Ok in Hn as (C0 & Rn). cbn [children] in C0.
    exists n, (Sint n), items. rewrite C, C0, <- !app_assoc.
    split; [reflexivity|]. split; [right; repeat split; auto; lia|].
    split; [lia | exact F].
Qed.

Lemma sequence_has_n_items_witness :
  exists n nv items,
    children (mkD LittleEndian [x4e]
                [type_field TYPE_SET; ("n", Sint (-2)); ("items", Array [])]) =
      [] ++ [type_field (strip x3c); ("n", nv); ("items", Array items)] /\
    ((strip x3c = TYPE_SMALL_TUPLE /\ nv = Uint n None /\ 0 <= n < 256) \/
     (strip x3c <> TYPE_SMALL_TUPLE /\ nv = Sint n /\ - 2 ^ 31 <= n < 2 ^ 31)) /\
    List.length items = Z.to_nat (Z.max 0 n) /\
    Forall is_item items.
Proof.
  apply (sequence_has_n_items x3c LittleEndian
           [xfe; xff; xff; xff; x4e] [] TYPE_SET).
  - cbn. auto.
  - reflexivity.
Defined.

(** ** Payloads of fixed width *)

Lemma U_at k e rest flds :
  (k <= List.length rest)%nat ->
  U k (mkD e rest flds) =
  Ok (uint_of_bytes e (firstn k rest), mkD e (skipn k rest) flds).
Proof.
  intros H. unfold U, bind, read_bytes, ret. cbn [buf Endian children].
  now destruct (Nat.leb_spec k (List.length rest)); [|lia].
Qed.

Lemma U_short k e rest flds :
  (List.length rest < k)%nat ->
  U k (mkD e rest flds) = Err (TruncatedInput k (List.length rest)).
Proof.
  intros H. unfold U, bind, read_bytes. cbn [buf Endian children].
  now destruct (Nat.leb_spec k (List.length rest)); [lia|].
Qed.

Lemma fixed_field_at (conv : Z -> Value) (post : Z -> Z) name k e rest flds :
  (k <= List.length rest)%nat ->
  (v <- (u <- U k ;; ret (post u)) ;; add_field name (conv v) ;; ret v)
    (mkD e rest flds) =
  Ok (post (uint_of_bytes e (firstn k rest)),
      mkD e (skipn k rest)
        (flds ++ [(name, conv (post (uint_of_bytes e (firstn k rest))))])).
Proof.
  intros H. unfold bind at 1 2. now rewrite (U_at _ _ _ _ H).
Qed.

Lemma fixed_field_short {A} (k' : Z -> Dec A) k e rest flds :
  (List.length rest < k)%nat ->
  (u <- U k ;; k' u) (mkD e rest flds) =
  Err (TruncatedInput k (List.length rest)).
Proof. intros H. apply bind_Err, U_short, H. Qed.

Lemma FieldS32_at name e rest flds :
  (4 <= List.length rest)%nat ->
  exists v, FieldS32 name (mkD e rest flds) =
            Ok (v, mkD e (skipn 4 rest) (flds ++ [(name, Sint v)])).
Proof. intros H. eexists. apply (fixed_field_at Sint (to_signed _) name 4 e rest flds H). Qed.

Lemma FieldS64_at name e rest flds :
  (8 <= List.length rest)%nat ->
  exists v, FieldS64 name (mkD e rest flds) =
            Ok (v, mkD e (skipn 8 rest) (flds ++ [(name, Sint v)])).
Proof. intros H. eexists. apply (fixed_field_at Sint (to_signed _) name 8 e rest flds H). Qed.

Lemma FieldU32_at name e rest flds :
  (4 <= List.length rest)%nat ->
  exists v, FieldU32 name (mkD e rest flds) =
            Ok (v, mkD e (skipn 4 rest) (flds ++ [(name, Uint v None)])).
Proof.
  intros H. eexists. unfold FieldU32, bind at 1. now rewrite (U_at _ _ _ _ H).
Qed.

Lemma FieldF64_at name e rest flds :
  (8 <= List.length rest)%nat ->
  exists v, FieldF64 name (mkD e rest flds) =
            Ok (v, mkD e (skipn 8 rest) (flds ++ [(name, Flt v)])).
Proof.
  intros H. eexists. unfold FieldF64, bind at 1. now rewrite (U_at _ _ _ _ H).
Qed.

Lemma fixed_switch_Ok rec ty k e rest flds :
  In (ty, k) fixed_payload ->
  (k <= List.length rest)%nat ->
  exists fs,
    r_object_switch rec ty (mkD e rest flds) =
    Ok (tt, mkD e (skipn k rest) (flds ++ fs)).
Proof.
  intros Hin Hk. unfold fixed_payload in Hin. cbn [In] in Hin.
  repeat (destruct Hin as [Hin|Hin];
          [injection Hin as <- <-|]); try contradiction.
  1-6: exists []; rewrite app_nil_r; reflexivity.
  - change (r_object_switch rec TYPE_INT) with (void (FieldS32 "value")).
    destruct (FieldS32_at "value" e rest flds Hk) as [v E].
    eexists. unfold void. now rewrite (bind_step _ _ _ _ _ E).
  - change (r_object_switch rec TYPE_INT64) with (void (FieldS64 "value")).
    destruct (FieldS64_at "value" e rest flds Hk) as [v E].
    eexists. unfold void. now rewrite (bind_step _ _ _ _ _ E).
  - change (r_object_switch rec TYPE_BINARY_FLOAT) with (void (FieldF64 "value")).
    destruct (FieldF64_at "value" e rest flds Hk) as [v E].
    eexists. unfold void. now rewrite (bind_step _ _ _ _ _ E).
  - change (r_object_switch rec TYPE_BINARY_COMPLEX) with
      (FieldF64 "real" ;; void (FieldF64 "imag")).
    destruct (FieldF64_at "real" e rest flds) as [v1 E1]; [lia|].
    destruct (FieldF64_at "imag" e (skipn 8 rest) (flds ++ [("real", Flt v1)]))
      as [v2 E2]; [rewrite length_skipn; lia|].
    eexists. rewrite (bind_step _ _ _ _ _ E1). unfold void.
    rewrite (bind_step _ _ _ _ _ E2), skipn_skipn, <- app_assoc. reflexivity.
  - change (r_object_switch rec TYPE_REF) with (void (FieldU32 "index")).
    destruct (FieldU32_at "index" e rest flds Hk) as [v E].
    eexists. unfold void. now rewrite (bind_step _ _ _ _ _ E).
Qed.

Lemma fixed_switch_short rec ty k e rest flds :
  In (ty, k) fixed_payload ->
  (List.length rest < k)%nat ->
  exists need left,
    r_object_switch rec ty (mkD e rest flds) = Err (TruncatedInput need left).
Proof.
  intros Hin Hk. unfold fixed_payload in Hin. cbn [In] in Hin.
  repeat (destruct Hin as [Hin|Hin];
          [injection Hin as <- <-|]); try contradiction; try lia.
  - exists 4%nat, (List.length rest).
    change (r_object_switch rec TYPE_INT) with (void (FieldS32 "value")).
    unfold void, FieldS32, S_. now do 3 apply bind_Err; apply U_short.
  - exists 8%nat, (List.length rest).
    change (r_object_switch rec TYPE_INT64) with (void (FieldS64 "value")).
    unfold void, FieldS64, S_. now do 3 apply bind_Err; apply U_short.
  - exists 8%nat, (List.length rest).
    change (r_object_switch rec TYPE_BINARY_FLOAT) with (void (FieldF64 "value")).
    unfold void, FieldF64. now do 2 apply bind_Err; apply U_short.
  - change (r_object_switch rec TYPE_BINARY_COMPLEX) with
      (FieldF64 "real" ;; void (FieldF64 "imag")).
    destruct (Nat.le_gt_cases 8 (List.length rest)) as [L|L].
    + destruct (FieldF64_at "real" e rest flds L) as [v1 E1].
      exists 8%nat, (List.length (skipn 8 rest)).
      rewrite (bind_step _ _ _ _ _ E1). unfold void, FieldF64.
      do 2 apply bind_Err; apply U_short. rewrite length_skipn. lia.
    + exists 8%nat, (List.length rest). unfold FieldF64.
      now do 2 apply bind_Err; apply U_short.
  - exists 4%nat, (List.length rest).
    change (r_object_switch rec TYPE_REF) with (void (FieldU32 "index")).
    unfold void, FieldU32. now do 2 apply bind_Err; apply U_short.
Qed.

(** X7: the tags without payload (Null, None, StopIteration, Ellipsis,
    False, True) and with a payload of fixed width (int 4 bytes, int64 8,
    binary_float 8, binary_complex 16, ref 4) read exactly that many
    bytes after the tag byte when the input has them, whatever the bytes
    are, and fail for lack of input when it has fewer.  In particular a
    ref is accepted with any index: no object is looked up. *)
Theorem fixed_width_payloads b e rest flds k :
  In (strip b, k) fixed_payload ->
  ((k <= List.length rest)%nat ->
   exists fs,
     r_object (mkD e (b :: rest) flds) =
     Ok (strip b,
         mkD e (skipn k rest) (flds ++ type_field (strip b) :: fs))) /\
  ((List.length rest < k)%nat ->
   exists need left,
     r_object (mkD e (b :: rest) flds) = Err (TruncatedInput need left)).
Proof.
  intros Hin. split; intros Hk; rewrite r_object_cons.
  - destruct (fixed_switch_Ok r_object _ _ e rest
                (flds ++ [type_field (strip b)]) Hin Hk) as [fs E].
    exists fs. rewrite (bind_step _ _ _ _ _ E), <- app_assoc. reflexivity.
  - destruct (fixed_switch_short r_object _ _ e rest
                (flds ++ [type_field (strip b)]) Hin Hk) as (need & left & E).
    exists need, left. now apply bind_Err.
Qed.

Lemma fixed_width_payloads_witness :
  (exists fs,
     r_object (mkD BigEndian [xf2; xff; xff; xff; xff; x4e] []) =
     Ok (strip xf2,
         mkD BigEndian (skipn 4 [xff; xff; xff; xff; x4e])
           ([] ++ type_field (strip xf2) :: fs))) /\
  (exists need left,
     r_object (mkD BigEndian [x79; x00; x00; x00; x00; x00; x00; x00; x00; x01] []) =
     Err (TruncatedInput need left)).
Proof.
  split.
  - apply (fixed_width_payloads xf2 BigEndian [xff; xff; xff; xff; x4e] [] 4%nat).
    + cbn. auto 20.
    + cbn. lia.
  - apply (fixed_width_payloads x79 BigEndian
             [x00; x00; x00; x00; x00; x00; x00; x00; x01] [] 16%nat).
    + cbn. auto 20.
    + cbn. lia.
Defined.

(** ** Byte strings *)

(** X8: after tag string a declared length [n >= 0] takes exactly the
    next [n] bytes as the raw value, whatever they are (they are not
    decoded as text), and leaves what follows; a declared length beyond
    the end of the input is a malformed-length error. *)
Theorem byte_string_is_raw_and_exact b e c0 c1 c2 c3 :
  strip b = TYPE_STRING ->
  (forall payload rest flds,
     s32 e c0 c1 c2 c3 = Z.of_nat (List.length payload) ->
     r_object (mkD e (b :: c0 :: c1 :: c2 :: c3 :: payload ++ rest) flds) =
     Ok (TYPE_STRING,
         mkD e rest
           (flds ++ [type_field TYPE_STRING;
                     ("length", Sint (Z.of_nat (List.length payload)));
                     ("value", Raw payload)]))) /\
  (forall tail flds,
     Z.of_nat (List.length tail) < s32 e c0 c1 c2 c3 ->
     r_object (mkD e (b :: c0 :: c1 :: c2 :: c3 :: tail) flds) =
     Err (MalformedLength (s32 e c0 c1 c2 c3))).
Proof.
  intros Hb. split.
  - intros payload rest flds Hn. rewrite r_object_cons, Hb.
    change (r_object_switch r_object TYPE_STRING) with
      (length <- FieldS32 "length" ;; FieldRawLen "value" (length * 8)).
    unfold bind at 1.
    rewrite (bind_step _ _ _ _ _ (FieldS32_cons _ _ _ _ _ _ _ _)), Hn.
    unfold FieldRawLen. rewrite Z.div_mul by lia.
    unfold bind, read_declared. cbn [buf].
    destruct (Z.ltb_spec (Z.of_nat (List.length payload)) 0); [lia|].
    rewrite Nat2Z.id.
    destruct (Nat.ltb_spec (List.length (payload ++ rest)) (List.length payload))
      as [X|_]; [rewrite length_app in X; lia|].
    rewrite read_bytes_app. cbn. rewrite <- !app_assoc. reflexivity.
  - intros tail flds Hn. rewrite r_object_cons, Hb.
    change (r_object_switch r_object TYPE_STRING) with
      (length <- FieldS32 "length" ;; FieldRawLen "value" (length * 8)).
    apply bind_Err.
    rewrite (bind_step _ _ _ _ _ (FieldS32_cons _ _ _ _ _ _ _ _)).
    unfold FieldRawLen. rewrite Z.div_mul by lia.
    apply bind_Err. unfold read_declared. cbn [buf].
    destruct (Z.ltb_spec (s32 e c0 c1 c2 c3) 0); [reflexivity|].
    destruct (Nat.ltb_spec (List.length tail) (Z.to_nat (s32 e c0 c1 c2 c3)));
      [reflexivity|lia].
Qed.

Lemma byte_string_is_raw_and_exact_witness :
  r_object (mkD LittleEndian
              (x73 :: x02 :: x00 :: x00 :: x00 :: [xff; xfe] ++ [x4e]) []) =
    Ok (TYPE_STRING,
        mkD LittleEndian [x4e]
          ([] ++ [type_field TYPE_STRING;
                  ("length", Sint (Z.of_nat (List.length [xff; xfe])));
                  ("value", Raw [xff; xfe])])) /\
  r_object (mkD LittleEndian (x73 :: x02 :: x00 :: x00 :: x00 :: [xff]) []) =
    Err (MalformedLength (s32 LittleEndian x02 x00 x00 x00)).
Proof.
  destruct (byte_string_is_raw_and_exact x73 LittleEndian x02 x00 x00 x00 eq_refl)
    as [H1 H2].
  split.
  - apply H1. reflexivity.
  - apply H2. reflexivity.
Defined.

(** ** The entry point, as a whole *)

(** X9: [decodePYC] reads sixteen header bytes as the four fields magic,
    bit field, timestamp and length, little endian whatever the byte
    order was, and then decodes one object into the struct "object"; the
    header values are not checked against anything (neither the magic
    nor the declared length), an error of the object is the error of
    [decodePYC], and with fewer than sixteen bytes it fails. *)
Theorem decodePYC_is_header_then_one_object :
  (forall e hdr body flds,
     List.length hdr = 16%nat ->
     decodePYC (mkD e (hdr ++ body) flds) =
     match r_object (mkD LittleEndian body []) with
     | Ok (_, d') =>
         Ok (tt, mkD LittleEndian (buf d')
                   (flds ++ header_fields hdr ++
                    [("object", Struct (children d'))]))
     | Err err => Err err
     end) /\
  (forall d,
     (List.length (buf d) < 16)%nat ->
     exists err, decodePYC d = Err err).
Proof.
  split.
  - intros e hdr body flds H. rewrite (decodePYC_header _ _ _ _ H).
    unfold bind, FieldStruct, ret. cbn [buf Endian children].
    destruct (r_object _) as [[ty d']|err]; [|reflexivity].
    now rewrite <- app_assoc.
  - intros [e s flds] H. cbn [buf] in H.
    do 16 (destruct s as [|? s]; [eexists; vm_compute; reflexivity|]).
    cbn in H. lia.
Qed.

Lemma decodePYC_is_header_then_one_object_witness :
  decodePYC (mkD BigEndian
               ([x00; x00; x00; x00; x00; x00; x00; x00;
                 x00; x00; x00; x00; xff; xff; xff; xff] ++ [x4e; x54]) []) =
  match r_object (mkD LittleEndian [x4e; x54] []) with
  | Ok (_, d') =>
      Ok (tt, mkD LittleEndian (buf d')
                ([] ++ header_fields
                         [x00; x00; x00; x00; x00; x00; x00; x00;
                          x00; x00; x00; x00; xff; xff; xff; xff] ++
                 [("object", Struct (children d'))]))
  | Err err => Err err
  end /\
  exists err, decodePYC (mkD LittleEndian [xa7; x0d; x0d; x0a] []) = Err err.
Proof.
  destruct decodePYC_is_header_then_one_object as [H1 H2]. split.
  - apply H1. reflexivity.
  - apply H2. cbn. lia.
Defined.

(** ** Errors inside a sequence *)

Lemma times_aborts rec e s items s' :
  reads_items rec e s items s' ->
  forall err j flds,
    rec (mkD e s' []) = Err err ->
    times (List.length items + S j) (FieldStruct "item" (void rec)) (mkD e s flds) =
    Err err.
Proof.
  induction 1 as [s|s ty d1 items s' H R IH]; intros err j flds E.
  - cbn [List.length Nat.add times]. apply bind_Err, FieldStruct_Err.
    cbn [Endian buf]. unfold void. now apply bind_Err.
  - cbn [List.length Nat.add times].
    erewrite bind_step.
    2:{ apply FieldStruct_Ok. cbn [Endian buf]. unfold void.
        erewrite bind_step by eassumption. reflexivity. }
    cbn [Endian buf children]. now apply IH.
Qed.

(** X10: the sequence helper stops at the first element that fails: when
    fewer than [n] elements decode one after the other and the next one
    fails, [read_list] ends with the error or panic of that element,
    whatever follows it in the input. *)
Theorem read_list_fails_with_first_error rec n d items s err :
  reads_items rec (Endian d) (buf d) items s ->
  (List.length items < Z.to_nat n)%nat ->
  rec (mkD (Endian d) s []) = Err err ->
  read_list rec n d = Err err.
Proof.
  intros R L E. unfold read_list, FieldStructNArray.
  unfold FieldArray.
  replace (Z.to_nat n) with (List.length items + S (Z.to_nat n - S (List.length items)))%nat
    by lia.
  now rewrite (times_aborts _ _ _ _ _ R err _ [] E).
Qed.

Lemma read_list_fails_with_first_error_witness :
  read_list r_object 3 (mkD LittleEndian [x4e; x6c; x4e] []) =
  Err (GoPanic "long not implemented").
Proof.
  apply (read_list_fails_with_first_error r_object 3
           (mkD LittleEndian [x4e; x6c; x4e] [])
           [("item", bare TYPE_NONE)] [x6c; x4e]).
  - apply (reads_cons r_object LittleEndian [x4e; x6c; x4e] TYPE_NONE
             (mkD LittleEndian [x6c; x4e] [type_field TYPE_NONE]) [] [x6c; x4e]).
    + reflexivity.
    + apply reads_nil.
  - cbn. lia.
  - reflexivity.
Defined.

(** ** Scalars *)

Lemma byte_val_of_Z z : byte_val (byte_of_Z z) = z mod 256.
Proof.
  unfold byte_of_Z, byte_val.
  pose proof (Z.mod_pos_bound z 256 eq_refl) as R.
  destruct (Byte.of_N (Z.to_N (z mod 256))) as [b|] eqn:E.
  - apply Byte.to_of_N in E. rewrite E. apply Z2N.id. lia.
  - apply Byte.of_N_None_iff in E. lia.
Qed.

Lemma length_le_bytes n : forall v, List.length (le_bytes n v) = n.
Proof. induction n; intros v; cbn [le_bytes List.length]; auto. Qed.

Lemma le_uint_le_bytes n : forall v,
  le_uint (le_bytes n v) = v mod 256 ^ Z.of_nat n.
Proof.
  induction n as [|n IH]; intros v.
  - cbn. now rewrite Z.mod_1_r.
  - cbn [le_bytes le_uint]. rewrite byte_val_of_Z, IH.
    rewrite Nat2Z.inj_succ, Z.pow_succ_r by lia.
    rewrite Z.rem_mul_r by lia. reflexivity.
Qed.

Lemma to_signed_mod w v :
  0 < w -> - 2 ^ (w - 1) <= v < 2 ^ (w - 1) ->
  to_signed w (v mod 2 ^ w) = v.
Proof.
  intros Hw Hv. unfold to_signed.
  assert (E : 2 ^ w = 2 * 2 ^ (w - 1)).
  { rewrite <- Z.pow_succ_r by lia. f_equal. lia. }
  assert (P : 0 < 2 ^ (w - 1)) by (apply Z.pow_pos_nonneg; lia).
  destruct (Z.lt_ge_cases v 0) as [N|N].
  - assert (M : v mod 2 ^ w = v + 2 ^ w).
    { rewrite <- (Z_mod_plus_full v 1 (2 ^ w)), Z.mul_1_l.
      apply Z.mod_small. lia. }
    rewrite M. destruct (Z.ltb_spec (v + 2 ^ w) (2 ^ (w - 1))); lia.
  - rewrite Z.mod_small by lia.
    destruct (Z.ltb_spec v (2 ^ (w - 1))); lia.
Qed.

Lemma U_app e bs rest flds :
  U (List.length bs) (mkD e (bs ++ rest) flds) =
  Ok (uint_of_bytes e bs, mkD e rest flds).
Proof.
  unfold U. now rewrite (bind_step _ _ _ _ _ (read_bytes_app e bs rest flds)).
Qed.

Lemma U_le_bytes n v rest flds :
  U n (mkD LittleEndian (le_bytes n v ++ rest) flds) =
  Ok (v mod 256 ^ Z.of_nat n, mkD LittleEndian rest flds).
Proof.
  rewrite <- (length_le_bytes n v) at 1. rewrite U_app.
  cbn [uint_of_bytes]. now rewrite le_uint_le_bytes.
Qed.

Lemma FieldS32_le_bytes name v rest flds :
  - 2 ^ 31 <= v < 2 ^ 31 ->
  FieldS32 name (mkD LittleEndian (le_bytes 4 v ++ rest) flds) =
  Ok (v, mkD LittleEndian rest (flds ++ [(name, Sint v)])).
Proof.
  intros H. unfold FieldS32, S_. unfold bind at 1 2.
  rewrite U_le_bytes.
  change (256 ^ Z.of_nat 4) with (2 ^ 32).
  change (8 * Z.of_nat 4) with 32.
  rewrite (to_signed_mod 32 v) by (change (2 ^ (32 - 1)) with (2 ^ 31); lia).
  reflexivity.
Qed.

Lemma FieldS64_le_bytes name v rest flds :
  - 2 ^ 63 <= v < 2 ^ 63 ->
  FieldS64 name (mkD LittleEndian (le_bytes 8 v ++ rest) flds) =
  Ok (v, mkD LittleEndian rest (flds ++ [(name, Sint v)])).
Proof.
  intros H. unfold FieldS64, S_. unfold bind at 1 2.
  rewrite U_le_bytes.
  change (256 ^ Z.of_nat 8) with (2 ^ 64).
  change (8 * Z.of_nat 8) with 64.
  rewrite (to_signed_mod 64 v) by (change (2 ^ (64 - 1)) with (2 ^ 63); lia).
  reflexivity.
Qed.

(** The three fields of a binary64 pattern are found again by the bit
    operations of [float64frombits]. *)
Lemma float64frombits_fields s e m :
  0 <= e < 2048 -> 0 <= m < 2 ^ 52 ->
  float64frombits (binary64_bits s e m) = binary64 s e m.
Proof.
  intros He Hm.
  set (sb := if s then 1 else 0).
  assert (Hs : 0 <= sb <= 1) by (subst sb; destruct s; lia).
  assert (B : binary64_bits s e m = sb * 2 ^ 63 + e * 2 ^ 52 + m).
  { unfold binary64_bits. subst sb. destruct s; lia. }
  assert (T : Z.testbit (binary64_bits s e m) 63 = s).
  { rewrite Z.testbit_eqb by lia. rewrite B.
    replace ((sb * 2 ^ 63 + e * 2 ^ 52 + m) / 2 ^ 63) with sb.
    - subst sb. now destruct s.
    - change (2 ^ 63) with 9223372036854775808.
      change (2 ^ 52) with 4503599627370496 in *.
      apply Z.div_unique with (r := e * 4503599627370496 + m); lia. }
  assert (E : Z.land (Z.shiftr (binary64_bits s e m) 52) 2047 = e).
  { change 2047 with (Z.ones 11).
    rewrite Z.land_ones, Z.shiftr_div_pow2 by lia. rewrite B.
    replace ((sb * 2 ^ 63 + e * 2 ^ 52 + m) / 2 ^ 52) with (sb * 2048 + e).
    - change (2 ^ 11) with 2048.
      rewrite Z.add_comm, Z_mod_plus_full. apply Z.mod_small. lia.
    - change (2 ^ 63) with 9223372036854775808.
      change (2 ^ 52) with 4503599627370496 in *.
      apply Z.div_unique with (r := m); lia. }
  assert (M : Z.land (binary64_bits s e m) (Z.ones 52) = m).
  { rewrite Z.land_ones by lia. rewrite B.
    change (2 ^ 63) with (2048 * 2 ^ 52).
    replace (sb * (2048 * 2 ^ 52) + e * 2 ^ 52 + m)
      with (m + (sb * 2048 + e) * 2 ^ 52) by lia.
    rewrite Z_mod_plus_full. apply Z.mod_small. lia. }
  unfold float64frombits, binary64. rewrite T, E, M.
  destruct (Z.eqb_spec e 0) as [E0|E0].
  - destruct (Z.eqb_spec m 0) as [->|M0]; [reflexivity|].
    destruct m as [|p|p]; try lia. reflexivity.
  - destruct (Z.eqb_spec e 2047); [reflexivity|].
    rewrite Z.add_comm.
    destruct (2 ^ 52 + m) as [|p|p] eqn:P; try lia. reflexivity.
Qed.

Lemma FieldF64_le_bytes name s e m rest flds :
  0 <= e < 2048 -> 0 <= m < 2 ^ 52 ->
  FieldF64 name (mkD LittleEndian (le_bytes 8 (binary64_bits s e m) ++ rest) flds) =
  Ok (binary64 s e m,
      mkD LittleEndian rest (flds ++ [(name, Flt (binary64 s e m))])).
Proof.
  intros He Hm. unfold FieldF64. unfold bind at 1.
  rewrite U_le_bytes.
  change (256 ^ Z.of_nat 8) with (2 ^ 64).
  rewrite Z.mod_small.
  - cbv zeta. now rewrite (float64frombits_fields s e m He Hm).
  - unfold binary64_bits.
    change (2 ^ 64) with 18446744073709551616.
    change (2 ^ 63) with 9223372036854775808.
    change (2 ^ 52) with 4503599627370496 in *.
    destruct s; lia.
Qed.

Lemma r_object_int rest flds v :
  - 2 ^ 31 <= v < 2 ^ 31 ->
  r_object (mkD LittleEndian (x69 :: le_bytes 4 v ++ rest) flds) =
  Ok (TYPE_INT,
      mkD LittleEndian rest (flds ++ [type_field TYPE_INT; ("value", Sint v)])).
Proof.
  intros H. rewrite r_object_cons.
  change (r_object_switch r_object (strip x69)) with (void (FieldS32 "value")).
  unfold void. unfold bind at 1 2.
  rewrite (FieldS32_le_bytes _ _ _ _ H). cbn. now rewrite <- app_assoc.
Qed.

(** C8: with the byte order that [decodePYC] sets, the scalar tags decode
    the documented little-endian patterns to the exact value.  Tag [int]
    followed by the four bytes of [v] decodes to the signed integer [v],
    for every 32-bit [v], negative ones too (2A 00 00 00 is 42,
    FF FF FF FF is -1); tag [int64] does so with eight bytes; tag
    [binary_float] followed by the eight bytes of a binary64 pattern
    decodes to the number IEEE-754 gives its sign, exponent and fraction
    (00 00 00 00 00 00 F8 3F is 3/2), and [binary_complex] to two of
    them, real part first; all whatever follows, and through [decodePYC]
    after any 16-byte header. *)
Theorem scalar_patterns_decode_exactly :
  (forall v rest flds,
     - 2 ^ 31 <= v < 2 ^ 31 ->
     r_object (mkD LittleEndian (x69 :: le_bytes 4 v ++ rest) flds) =
     Ok (TYPE_INT,
         mkD LittleEndian rest
           (flds ++ [("type", Uint TYPE_INT (Some ("int", "Integer")));
                     ("value", Sint v)]))) /\
  (forall v rest flds,
     - 2 ^ 63 <= v < 2 ^ 63 ->
     r_object (mkD LittleEndian (x49 :: le_bytes 8 v ++ rest) flds) =
     Ok (TYPE_INT64,
         mkD LittleEndian rest
           (flds ++ [("type", Uint TYPE_INT64 (Some ("int64", "64-bit integer")));
                     ("value", Sint v)]))) /\
  (forall s e m rest flds,
     0 <= e < 2048 -> 0 <= m < 2 ^ 52 ->
     r_object (mkD LittleEndian
                 (x67 :: le_bytes 8 (binary64_bits s e m) ++ rest) flds) =
     Ok (TYPE_BINARY_FLOAT,
         mkD LittleEndian rest
           (flds ++ [("type", Uint TYPE_BINARY_FLOAT
                                (Some ("binary_float", "Binary float")));
                     ("value", Flt (binary64 s e m))]))) /\
  (forall s e m s' e' m' rest flds,
     0 <= e < 2048 -> 0 <= m < 2 ^ 52 ->
     0 <= e' < 2048 -> 0 <= m' < 2 ^ 52 ->
     r_object (mkD LittleEndian
                 (x79 :: le_bytes 8 (binary64_bits s e m) ++
                         le_bytes 8 (binary64_bits s' e' m') ++ rest) flds) =
     Ok (TYPE_BINARY_COMPLEX,
         mkD LittleEndian rest
           (flds ++ [("type", Uint TYPE_BINARY_COMPLEX
                                (Some ("binary_complex", "Binary complex")));
                     ("real", Flt (binary64 s e m));
                     ("imag", Flt (binary64 s' e' m'))]))) /\
  (le_bytes 4 42 = [x2a; x00; x00; x00] /\
   le_bytes 4 (-1) = [xff; xff; xff; xff] /\
   le_bytes 8 (binary64_bits false 1023 (2 ^ 51)) =
     [x00; x00; x00; x00; x00; x00; xf8; x3f] /\
   binary64 false 1023 (2 ^ 51) = one_and_a_half /\
   option_map Qred (float_value one_and_a_half) = Some (3 # 2)%Q) /\
  (forall e hdr v,
     List.length hdr = 16%nat ->
     - 2 ^ 31 <= v < 2 ^ 31 ->
     decodePYC (mkD e (hdr ++ x69 :: le_bytes 4 v) []) =
     Ok (tt, mkD LittleEndian []
               (header_fields hdr ++
                [("object", Struct [type_field TYPE_INT; ("value", Sint v)])]))).
Proof.
  split; [exact (fun v rest flds => r_object_int rest flds v)|].
  split.
  { intros v rest flds H. rewrite r_object_cons.
    change (r_object_switch r_object (strip x49)) with (void (FieldS64 "value")).
    unfold void. unfold bind at 1 2.
    rewrite (FieldS64_le_bytes _ _ _ _ H). cbn. now rewrite <- app_assoc. }
  split.
  { intros s e m rest flds He Hm. rewrite r_object_cons.
    change (r_object_switch r_object (strip x67)) with (void (FieldF64 "value")).
    unfold void. unfold bind at 1 2.
    rewrite (FieldF64_le_bytes _ _ _ _ _ _ He Hm). cbn. now rewrite <- app_assoc. }
  split.
  { intros s e m s' e' m' rest flds He Hm He' Hm'. rewrite r_object_cons.
    change (r_object_switch r_object (strip x79)) with
      (FieldF64 "real" ;; void (FieldF64 "imag")).
    unfold void. unfold bind at 1 2.
    rewrite (FieldF64_le_bytes _ _ _ _ _ _ He Hm).
    unfold bind at 1.
    rewrite (FieldF64_le_bytes _ _ _ _ _ _ He' Hm').
    cbn. now rewrite <- !app_assoc. }
  split; [repeat split|].
  intros e hdr v Hh Hv. rewrite (decodePYC_header _ _ _ _ Hh).
  erewrite bind_step.
  2:{ apply FieldStruct_Ok. cbn [Endian buf].
      rewrite <- (app_nil_r (le_bytes 4 v)). apply r_object_int, Hv. }
  reflexivity.
Qed.

Lemma scalar_patterns_decode_exactly_witness :
  r_object (mkD LittleEndian (x69 :: le_bytes 4 (-1) ++ [x4e]) []) =
    Ok (TYPE_INT,
        mkD LittleEndian [x4e]
          ([] ++ [("type", Uint TYPE_INT (Some ("int", "Integer")));
                  ("value", Sint (-1))])) /\
  r_object (mkD LittleEndian
              (x67 :: le_bytes 8 (binary64_bits false 1023 (2 ^ 51)) ++ []) []) =
    Ok (TYPE_BINARY_FLOAT,
        mkD LittleEndian []
          ([] ++ [("type", Uint TYPE_BINARY_FLOAT
                             (Some ("binary_float", "Binary float")));
                  ("value", Flt (binary64 false 1023 (2 ^ 51)))])) /\
  decodePYC (mkD BigEndian
               ([xa7; x0d; x0d; x0a; x00; x00; x00; x00;
                 x10; x20; x30; x40; x05; x00; x00; x00] ++
                x69 :: le_bytes 4 42) []) =
    Ok (tt, mkD LittleEndian []
              (header_fields [xa7; x0d; x0d; x0a; x00; x00; x00; x00;
                              x10; x20; x30; x40; x05; x00; x00; x00] ++
               [("object", Struct [type_field TYPE_INT; ("value", Sint 42)])])).
Proof.
  destruct scalar_patterns_decode_exactly as (H1 & _ & H3 & _ & _ & H6).
  split; [|split].
  - apply H1. lia.
  - apply H3; lia.
  - apply H6; [reflexivity | lia].
Defined.

(** ** Field names *)

Lemma adds_ret {A} (a : A) : adds [] (ret a).
Proof. intros d a' d' H. inversion H; subst. now rewrite app_nil_r. Qed.

Lemma adds_fail {A} l e : adds l (@fail A e).
Proof. intros d a d' H. discriminate. Qed.

Lemma adds_bind {A B} l1 l2 (m : Dec A) (k : A -> Dec B) :
  adds l1 m -> (forall a, adds l2 (k a)) -> adds (l1 ++ l2) (bind m k).
Proof.
  intros Hm Hk d b d' H. apply bind_Ok in H as (a & d1 & H1 & H2).
  apply Hm in H1. apply Hk in H2. now rewrite H2, H1, app_assoc.
Qed.

Lemma adds_bind_nil {A B} l (m : Dec A) (k : A -> Dec B) :
  adds [] m -> (forall a, adds l (k a)) -> adds l (bind m k).
Proof. exact (adds_bind [] l m k). Qed.

Lemma adds_bind_cons {A B} x l (m : Dec A) (k : A -> Dec B) :
  adds [x] m -> (forall a, adds l (k a)) -> adds (x :: l) (bind m k).
Proof. exact (adds_bind [x] l m k). Qed.

Lemma adds_bind_last {A B} x (m : Dec A) (k : A -> Dec B) :
  adds [x] m -> (forall a, adds [] (k a)) -> adds [x] (bind m k).
Proof. exact (adds_bind [x] [] m k). Qed.

Lemma adds_read_bytes n : adds [] (read_bytes n).
Proof.
  intros d bs d' H. apply read_bytes_Ok in H as (_ & _ & _ & C).
  now rewrite C, app_nil_r.
Qed.

Lemma adds_add_field name v : adds [name] (add_field name v).
Proof. intros d a d' H. inversion H; subst. cbn. now rewrite map_app. Qed.

Lemma adds_U n : adds [] (U n).
Proof.
  intros d u d' H. apply U_Ok in H as (_ & _ & C). now rewrite C, app_nil_r.
Qed.

Lemma adds_read_declared n : adds [] (read_declared n).
Proof.
  intros d bs d' H. unfold read_declared in H.
  destruct (n <? 0); [discriminate|].
  destruct (_ <? _)%nat; [discriminate|].
  now apply adds_read_bytes in H.
Qed.

Create HintDb names discriminated.

#[local] Hint Resolve adds_ret adds_fail adds_read_bytes adds_add_field adds_U
  adds_read_declared adds_bind_nil : names.

Lemma adds_text n : adds [] (text n).
Proof.
  unfold text. apply adds_bind_nil; [auto with names|].
  intros bs. destruct (utf8_valid bs); auto with names.
Qed.

Lemma adds_FieldStruct {A} name (fn : Dec A) : adds [name] (FieldStruct name fn).
Proof.
  intros d a d' H. apply FieldStruct_inv in H as (fs & C).
  now rewrite C, map_app.
Qed.

Lemma adds_FieldArray {A} name (fn : Dec A) : adds [name] (FieldArray name fn).
Proof.
  intros d a d' H. unfold FieldArray in H.
  destruct (fn _) as [[a1 d1]|]; [|discriminate].
  inversion H; subst. cbn. now rewrite map_app.
Qed.

Lemma adds_void {A} l (m : Dec A) : adds l m -> adds l (void m).
Proof.
  intros H. unfold void. rewrite <- (app_nil_r l).
  apply adds_bind; auto with names.
Qed.

Lemma adds_read_list rec n : adds ["items"] (read_list rec n).
Proof. apply adds_FieldArray. Qed.

Lemma adds_fields :
  (forall name, adds [name] (FieldU8 name)) /\
  (forall name, adds [name] (FieldU32 name)) /\
  (forall name, adds [name] (FieldS32 name)) /\
  (forall name, adds [name] (FieldS64 name)) /\
  (forall name, adds [name] (FieldF64 name)) /\
  (forall name k, adds [name] (FieldRawLen name k)) /\
  (forall name k, adds [name] (FieldStr name k)) /\
  (forall name, adds [name] (FieldUTF8ShortString name)).
Proof.
  unfold FieldU8, FieldU32, FieldS32, FieldS64, FieldF64, FieldRawLen,
    FieldStr, FieldUTF8ShortString, U8, S_.
  repeat split; intros;
    repeat (apply adds_bind_nil;
            [solve [auto 6 using adds_text with names]|]; intros);
    try (apply adds_bind_last; [solve [auto with names]|]; intros);
    auto using adds_text with names.
Qed.

Lemma adds_FieldU8 name : adds [name] (FieldU8 name).
Proof. apply adds_fields. Qed.
Lemma adds_FieldU32 name : adds [name] (FieldU32 name).
Proof. apply adds_fields. Qed.
Lemma adds_FieldS32 name : adds [name] (FieldS32 name).
Proof. apply adds_fields. Qed.
Lemma adds_FieldS64 name : adds [name] (FieldS64 name).
Proof. apply adds_fields. Qed.
Lemma adds_FieldF64 name : adds [name] (FieldF64 name).
Proof. apply adds_fields. Qed.
Lemma adds_FieldRawLen name k : adds [name] (FieldRawLen name k).
Proof. apply adds_fields. Qed.
Lemma adds_FieldStr name k : adds [name] (FieldStr name k).
Proof. apply adds_fields. Qed.
Lemma adds_FieldUTF8ShortString name : adds [name] (FieldUTF8ShortString name).
Proof. apply adds_fields. Qed.

#[local] Hint Resolve adds_FieldStruct adds_FieldArray adds_void adds_read_list
  adds_FieldU8 adds_FieldU32 adds_FieldS32 adds_FieldS64 adds_FieldF64
  adds_FieldRawLen adds_FieldStr adds_FieldUTF8ShortString adds_bind_cons : names.

Lemma adds_switch rec ty : adds (switch_names ty) (r_object_switch rec ty).
Proof.
  unfold switch_names, r_object_switch, panic.
  split_ifs; auto 40 with names.
Qed.

Lemma distinct_NoDup l : distinct l = true -> NoDup l.
Proof.
  induction l as [|x l IH]; cbn [distinct]; intros H; constructor.
  - apply andb_prop in H as [H _]. intros I.
    assert (E : existsb (String.eqb x) l = true).
    { apply existsb_exists. exists x. split; [exact I | apply String.eqb_refl]. }
    now rewrite E in H.
  - apply andb_prop in H as [_ H]. auto.
Qed.

Lemma switch_names_distinct ty : distinct ("type" :: switch_names ty) = true.
Proof. unfold switch_names. split_ifs; reflexivity. Qed.

(** X11: the fields one call of [r_object] adds are "type" and then the
    fields of the case of the returned tag, in the order of the source;
    no name is among them twice, so a struct that [r_object] fills from
    empty never has two fields of one name. *)
Theorem r_object_field_names_differ d ty d' :
  r_object d = Ok (ty, d') ->
  map fst (children d') = map fst (children d) ++ "type" :: switch_names ty /\
  NoDup ("type" :: switch_names ty).
Proof.
  intros H. split; [|apply distinct_NoDup, switch_names_distinct].
  rewrite r_object_eq in H. unfold r_object_body in H.
  apply bind_Ok in H as (ty1 & d1 & H1 & H2).
  apply bind_Ok in H2 as ([] & d2 & H2 & H3).
  inversion H3; subst; clear H3.
  apply read_type_Ok in H1 as (b & rest & _ & _ & ->).
  apply adds_switch in H2. cbn [children] in H2.
  rewrite H2, map_app, <- app_assoc. reflexivity.
Qed.

Lemma r_object_field_names_differ_witness :
  map fst (children (mkD LittleEndian []
                       [type_field TYPE_BINARY_COMPLEX;
                        ("real", Flt (S754_zero false));
                        ("imag", Flt (S754_zero true))])) =
    map fst (children (mkD LittleEndian
                         [x79; x00; x00; x00; x00; x00; x00; x00; x00;
                          x00; x00; x00; x00; x00; x00; x00; x80] [])) ++
    "type" :: switch_names TYPE_BINARY_COMPLEX /\
  NoDup ("type" :: switch_names TYPE_BINARY_COMPLEX).
Proof.
  apply (r_object_field_names_differ
           (mkD LittleEndian
              [x79; x00; x00; x00; x00; x00; x00; x00; x00;
               x00; x00; x00; x00; x00; x00; x00; x80] [])).
  reflexivity.
Defined.

(** ** Samples of the text check *)

Example utf8_valid_samples :
  utf8_valid [x61; x62; x63] = true /\
  utf8_valid [xe2; x82; xac] = true /\
  utf8_valid [xf0; x9f; x98; x80] = true /\
  utf8_valid [xc3; x28] = false /\
  utf8_valid [xc0; x80] = false /\
  utf8_valid [xed; xa0; x80] = false /\
  utf8_valid [xe2; x82] = false.
Proof. repeat split. Qed.
